(** * A Feistel-based block cipher: shallow embedding of [main.py]

    Python integers are unbounded, so they are modelled as [Z]; the bit
    operators of the source ([>>], [<<], [&], [|], [^]) are [Z.shiftr],
    [Z.shiftl], [Z.land], [Z.lor] and [Z.lxor], which agree with Python's
    two's-complement reading of negative integers.  A [bytes] object is a
    [list byte].  Exceptions are an error monad.  The two module-level
    variables holding the S-box tables are a record passed to every function
    that reads them.  The [print] calls of the source are console output
    and are left out. *)

From Stdlib Require Import String Strings.Byte.
From Stdlib Require Import ZArith List Lia Bool Permutation.
Import ListNotations.

Local Open Scope Z_scope.

(** ** Exceptions *)

Inductive exn : Type :=
| TypeError
| IndexError
| KeyError
| ZeroDivisionError
| OverflowError
| ValueError (msg : string).

Inductive result (A : Type) : Type :=
| Ok (a : A)
| Raise (e : exn).

Arguments Ok {A} a.
Arguments Raise {A} e.

Definition ret {A} (a : A) : result A := Ok a.

Definition bind {A B} (m : result A) (f : A -> result B) : result B :=
  match m with
  | Ok a => f a
  | Raise e => Raise e
  end.

Notation "x <- m ;; k" := (bind m (fun x => k))
  (at level 61, m at next level, right associativity).
Notation "' pat <- m ;; k" := (bind m (fun x => match x with pat => k end))
  (at level 61, pat pattern, m at next level, right associativity).

(** [raise ValueError("Invalid padding detected.")] *)
Definition InvalidPadding : exn := ValueError "Invalid padding detected.".

(** ** Python built-ins used by the source *)

Definition len {A} (l : list A) : Z := Z.of_nat (length l).

(** [range(n)]: empty when [n <= 0]. *)
Definition range (n : Z) : list Z := map Z.of_nat (seq 0 (Z.to_nat n)).

(** [l[i]] on a list: a negative index counts from the end, an index out
    of range raises [IndexError]. *)
Definition getitem {A} (l : list A) (i : Z) : result A :=
  let j := if i <? 0 then i + len l else i in
  if j <? 0 then Raise IndexError
  else match nth_error l (Z.to_nat j) with
       | Some a => Ok a
       | None => Raise IndexError
       end.

(** [g[i]] where the global [g] may still be [None]. *)
Definition subscript {A} (g : option (list A)) (i : Z) : result A :=
  match g with
  | None => Raise TypeError
  | Some l => getitem l i
  end.

Fixpoint update {A} (l : list A) (n : nat) (v : A) : list A :=
  match l, n with
  | [], _ => []
  | _ :: t, O => v :: t
  | h :: t, S n' => h :: update t n' v
  end.

(** [l[i] = v] on a list. *)
Definition setitem {A} (l : list A) (i : Z) (v : A) : result (list A) :=
  let j := if i <? 0 then i + len l else i in
  if (j <? 0) || (len l <=? j) then Raise IndexError
  else Ok (update l (Z.to_nat j) v).

(** [enumerate(l)] *)
Definition enumerate {A} (l : list A) : list (Z * A) :=
  combine (range (len l)) l.

(** A [for] loop whose body may raise: the loop variable runs over [xs],
    [acc] is the tuple of variables the body assigns. *)
Fixpoint for_each {A S} (xs : list A) (body : S -> A -> result S) (acc : S)
  : result S :=
  match xs with
  | [] => Ok acc
  | x :: rest => acc' <- body acc x ;; for_each rest body acc'
  end.

(** ** Bit manipulation *)

Definition rotate_left_16 (x n : Z) : Z :=
  let n := n mod 16 in
  Z.lor (Z.land (Z.shiftl x n) 0xFFFF) (Z.shiftr x (16 - n)).

(** ** LFSR key scheduling *)

Definition lfsr_step (state : Z) : Z * Z :=
  let b0 := Z.land (Z.shiftr state 0) 1 in
  let b1 := Z.land (Z.shiftr state 1) 1 in
  let b21 := Z.land (Z.shiftr state 21) 1 in
  let b31 := Z.land (Z.shiftr state 31) 1 in
  let new_bit := Z.lxor (Z.lxor (Z.lxor b0 b1) b21) b31 in
  let state := Z.land (Z.shiftr state 1) 0x7FFFFFFF in
  let state := if new_bit =? 1 then Z.lor state (Z.shiftl 1 31) else state in
  (state, state).

(** ** Key-dependent S-box generation *)

Section SBoxGenerator.

(** [random.Random(key).shuffle(box)] belongs to Python's standard
    library, not to this program: it is a parameter here.  [shuffle key l]
    is the content of the list after it was shuffled in place by a
    generator freshly seeded with [key]. *)
Variable shuffle : Z -> list Z -> list Z.

Definition generate_s_box (key : Z) : result (list Z * list Z) :=
  let box := shuffle key (range 16) in
  let inv_box := repeat 0 16 in
  inv_box <- for_each (enumerate box)
               (fun inv_box '(i, val) => setitem inv_box val i) inv_box ;;
  Ok (box, inv_box).

End SBoxGenerator.

(** A concrete seeded shuffle, used to instantiate the parameter above: the
    Fisher-Yates loop of [random.shuffle]
    ([for i in reversed(range(1, len(x))): j = randbelow(i + 1);
      x[i], x[j] = x[j], x[i]]) driven by a linear congruential generator. *)
Module FisherYates.

Definition randbelow (st n : Z) : Z * Z :=
  ((st / 65536) mod n, (st * 1103515245 + 12345) mod 2147483648).

Definition swap (x : list Z) (i j : nat) : list Z :=
  let a := nth i x 0 in
  let b := nth j x 0 in
  update (update x i b) j a.

Fixpoint loop (i : nat) (st : Z) (x : list Z) : list Z :=
  match i with
  | O => x
  | S i' =>
      let '(j, st') := randbelow st (Z.of_nat i + 1) in
      loop i' st' (swap x i (Z.to_nat j))
  end.

Definition shuffle (key : Z) (x : list Z) : list Z :=
  loop (pred (length x)) key x.

End FisherYates.

(** The module-level variables [s_box_nibble] and [inverse_s_box_nibble]:
    [None] until the main routine assigns the result of [generate_s_box]. *)
Record Globals : Type := {
  s_box_nibble : option (list Z);
  inverse_s_box_nibble : option (list Z)
}.

Definition initial_globals : Globals :=
  {| s_box_nibble := None; inverse_s_box_nibble := None |}.

(** [s_box_nibble, inverse_s_box_nibble = generate_s_box(key_32)] *)
Definition install_s_box (tables : list Z * list Z) : Globals :=
  {| s_box_nibble := Some (fst tables);
     inverse_s_box_nibble := Some (snd tables) |}.

Definition s_box (g : Globals) (x : Z) : result Z :=
  for_each (range 4)
    (fun result i =>
       let nibble := Z.land (Z.shiftr x (i * 4)) 0xF in
       sub <- subscript (s_box_nibble g) nibble ;;
       Ok (Z.lor result (Z.shiftl sub (i * 4))))
    0.

Definition inverse_s_box (g : Globals) (x : Z) : result Z :=
  for_each (range 4)
    (fun result i =>
       let nibble := Z.land (Z.shiftr x (i * 4)) 0xF in
       sub <- subscript (inverse_s_box_nibble g) nibble ;;
       Ok (Z.lor result (Z.shiftl sub (i * 4))))
    0.

(** ** P-box and its inverse *)

Definition p_box (x : Z) : Z :=
  fold_left
    (fun result i =>
       let bit := Z.land (Z.shiftr x i) 1 in
       let new_pos := (i * 3) mod 16 in
       Z.lor result (Z.shiftl bit new_pos))
    (range 16) 0.

(** A dict literal with integer keys, and [d[k]]. *)
Definition dict_getitem (d : list (Z * Z)) (k : Z) : result Z :=
  match find (fun kv => fst kv =? k) d with
  | Some kv => Ok (snd kv)
  | None => Raise KeyError
  end.

Definition mapping : list (Z * Z) :=
  [ (0, 0);  (1, 11); (2, 6);   (3, 1);
    (4, 12); (5, 7);  (6, 2);   (7, 13);
    (8, 8);  (9, 3);  (10, 14); (11, 9);
    (12, 4); (13, 15); (14, 10); (15, 5) ].

Definition inverse_p_box (x : Z) : result Z :=
  for_each (range 16)
    (fun result i =>
       let bit := Z.land (Z.shiftr x i) 1 in
       original_pos <- dict_getitem mapping i ;;
       Ok (Z.lor result (Z.shiftl bit original_pos)))
    0.

(** ** Feistel round functions *)

Definition round_function (g : Globals) (x subkey : Z) : result Z :=
  sx <- s_box g x ;;
  Ok (Z.lxor (p_box sx) (Z.land subkey 0xFFFF)).

(** The loop that both [encrypt_block] and [decrypt_block] run first:
    [rounds] LFSR steps, the low 16 bits of each output word appended to
    [subkeys].  Returns [(current_state, subkeys)]. *)
Definition subkey_schedule (lfsr_state rounds : Z) : Z * list Z :=
  fold_left
    (fun '(current_state, subkeys) _ =>
       let '(current_state, out_word) := lfsr_step current_state in
       (current_state, subkeys ++ [Z.land out_word 0xFFFF]))
    (range rounds) (lfsr_state, []).

Definition encrypt_block (g : Globals) (block lfsr_state rounds : Z)
  : result (Z * Z) :=
  let L := Z.land (Z.shiftr block 16) 0xFFFF in
  let R := Z.land block 0xFFFF in
  let '(current_state, subkeys) := subkey_schedule lfsr_state rounds in
  '(L, R) <- for_each (range rounds)
               (fun '(L, R) i =>
                  subkey <- getitem subkeys i ;;
                  F <- round_function g R subkey ;;
                  let new_L := R in
                  let new_R := Z.lxor L F in
                  Ok (new_L, new_R))
               (L, R) ;;
  let encrypted_block :=
    Z.lor (Z.shiftl (Z.land L 0xFFFF) 16) (Z.land R 0xFFFF) in
  Ok (encrypted_block, current_state).

Definition decrypt_block (g : Globals) (block lfsr_state rounds : Z)
  : result (Z * Z) :=
  let L := Z.land (Z.shiftr block 16) 0xFFFF in
  let R := Z.land block 0xFFFF in
  let '(current_state, subkeys) := subkey_schedule lfsr_state rounds in
  '(L, R) <- for_each (rev subkeys)
               (fun '(L, R) subkey =>
                  F <- round_function g L subkey ;;
                  let new_R := L in
                  let new_L := Z.lxor R F in
                  Ok (new_L, new_R))
               (L, R) ;;
  let decrypted_block :=
    Z.lor (Z.shiftl (Z.land L 0xFFFF) 16) (Z.land R 0xFFFF) in
  Ok (decrypted_block, current_state).

(** ** Bytes *)

(** The integer a byte holds, as read by [data[i]] or by iterating. *)
Definition int_of_byte (b : byte) : Z := Z.of_N (Byte.to_N b).

(** [bytes(l)] for a list of integers: each must be in [range(0, 256)]. *)
Definition byte_of_int (v : Z) : result byte :=
  if v <? 0 then Raise (ValueError "bytes must be in range(0, 256)")
  else match Byte.of_N (Z.to_N v) with
       | Some b => Ok b
       | None => Raise (ValueError "bytes must be in range(0, 256)")
       end.

Fixpoint bytes_of_ints (l : list Z) : result (list byte) :=
  match l with
  | [] => Ok []
  | v :: t => b <- byte_of_int v ;; bs <- bytes_of_ints t ;; Ok (b :: bs)
  end.

(** Slices.  An index of a slice is clamped, never out of range: a negative
    one counts from the end and stops at 0, a large one stops at the
    length. *)
Definition slice_index {A} (l : list A) (i : Z) : nat :=
  Z.to_nat (if i <? 0 then Z.max (i + len l) 0 else Z.min i (len l)).

(** [l[start:]] *)
Definition slice_from {A} (l : list A) (start : Z) : list A :=
  skipn (slice_index l start) l.

(** [l[:stop]] *)
Definition slice_to {A} (l : list A) (stop : Z) : list A :=
  firstn (slice_index l stop) l.

(** [l[start:stop]] *)
Definition slice {A} (l : list A) (start stop : Z) : list A :=
  firstn (slice_index l stop - slice_index l start) (skipn (slice_index l start) l).

(** [range(start, stop, step)] for a positive step. *)
Definition range_step (start stop step : Z) : list Z :=
  map (fun k => start + step * Z.of_nat k)
      (seq 0 (Z.to_nat ((stop - start + step - 1) / step))).

(** [int.from_bytes(chunk, byteorder='big')] *)
Definition int_from_bytes_big (chunk : list byte) : Z :=
  fold_left (fun acc b => acc * 256 + int_of_byte b) chunk 0.

(** [v.to_bytes(4, byteorder='big')]: [OverflowError] for a negative
    integer or one that does not fit in 4 bytes. *)
Definition int_to_bytes4_big (v : Z) : result (list byte) :=
  if (v <? 0) || (2 ^ 32 <=? v) then Raise OverflowError
  else bytes_of_ints
         [v / 2 ^ 24; (v / 2 ^ 16) mod 256; (v / 2 ^ 8) mod 256; v mod 256].

(** ** Padding and conversion *)

Definition pad_pkcs7 (data : list byte) (block_size : Z) : result (list byte) :=
  if block_size =? 0 then Raise ZeroDivisionError
  else
    let pad_len := block_size - (len data mod block_size) in
    let pad_len := if pad_len =? 0 then block_size else pad_len in
    padding <- bytes_of_ints (repeat pad_len (Z.to_nat pad_len)) ;;
    Ok (data ++ padding).

Definition unpad_pkcs7 (data : list byte) (block_size : Z) : result (list byte) :=
  last_byte <- getitem data (-1) ;;
  let pad_len := int_of_byte last_byte in
  if (pad_len <? 1) || (block_size <? pad_len) then Raise InvalidPadding
  else if existsb (fun p => negb (int_of_byte p =? pad_len))
                  (slice_from data (- pad_len))
       then Raise InvalidPadding
       else Ok (slice_to data (- pad_len)).

Definition bytes_to_blocks (data : list byte) : list Z :=
  fold_left
    (fun blocks i =>
       let chunk := slice data i (i + 4) in
       let block_val := int_from_bytes_big chunk in
       blocks ++ [block_val])
    (range_step 0 (len data) 4) [].

Definition blocks_to_bytes (blocks : list Z) : result (list byte) :=
  for_each blocks
    (fun output block =>
       chunk <- int_to_bytes4_big block ;;
       Ok (output ++ chunk))
    [].

(** ** Messages *)

(** The loop of [encrypt_message]; returns [encrypted_blocks]. *)
Definition encrypt_blocks (g : Globals) (blocks : list Z) (key_32 rounds : Z)
  : result (list Z) :=
  '(lfsr_state, encrypted_blocks) <-
    for_each (enumerate blocks)
      (fun '(lfsr_state, encrypted_blocks) '(idx, blk) =>
         '(enc_blk, lfsr_state) <- encrypt_block g blk lfsr_state rounds ;;
         Ok (lfsr_state, encrypted_blocks ++ [enc_blk]))
      (key_32, []) ;;
  Ok encrypted_blocks.

Definition encrypt_message (g : Globals) (plaintext : list byte)
  (key_32 rounds : Z) : result (list byte) :=
  padded <- pad_pkcs7 plaintext 4 ;;
  let blocks := bytes_to_blocks padded in
  encrypted_blocks <- encrypt_blocks g blocks key_32 rounds ;;
  blocks_to_bytes encrypted_blocks.

(** The loop of [decrypt_message]; returns [decrypted_blocks]. *)
Definition decrypt_blocks (g : Globals) (blocks : list Z) (key_32 rounds : Z)
  : result (list Z) :=
  '(lfsr_state, decrypted_blocks) <-
    for_each (enumerate blocks)
      (fun '(lfsr_state, decrypted_blocks) '(idx, blk) =>
         '(dec_blk, lfsr_state) <- decrypt_block g blk lfsr_state rounds ;;
         Ok (lfsr_state, decrypted_blocks ++ [dec_blk]))
      (key_32, []) ;;
  Ok decrypted_blocks.

Definition decrypt_message (g : Globals) (ciphertext : list byte)
  (key_32 rounds : Z) : result (list byte) :=
  let blocks := bytes_to_blocks ciphertext in
  decrypted_blocks <- decrypt_blocks g blocks key_32 rounds ;;
  padded_plaintext <- blocks_to_bytes decrypted_blocks ;;
  unpad_pkcs7 padded_plaintext 4.

(** The block list that [decrypt_message] holds in [decrypted_blocks] before
    it converts and unpads. *)
Definition decrypted_blocks_of (g : Globals) (ciphertext : list byte)
  (key_32 rounds : Z) : result (list Z) :=
  decrypt_blocks g (bytes_to_blocks ciphertext) key_32 rounds.

(** ** Vocabulary of the statements *)

Definition uint16 (x : Z) : Prop := 0 <= x < 2 ^ 16.
Definition uint32 (x : Z) : Prop := 0 <= x < 2 ^ 32.

(** The last [n] elements of [l] (all of [l] when it has fewer), and [l]
    without them. *)
Definition last_n {A} (n : Z) (l : list A) : list A :=
  skipn (length l - Z.to_nat n) l.
Definition strip_n {A} (n : Z) (l : list A) : list A :=
  firstn (length l - Z.to_nat n) l.

(** The feedback bit of the LFSR: taps 0, 1, 21 and 31. *)
Definition feedback (s : Z) : bool :=
  xorb (xorb (xorb (Z.testbit s 0) (Z.testbit s 1)) (Z.testbit s 21))
       (Z.testbit s 31).

(** The S-box global holds a 16-entry table: every nibble can be looked
    up.  This is what [s_box] needs in order not to raise. *)
Definition session_ready (g : Globals) : Prop :=
  exists box, s_box_nibble g = Some box /\ length box = 16%nat.

(** The globals were assigned the tables of [generate_s_box key], as the
    main routine does before it encrypts. *)
Definition session_of (shuffle : Z -> list Z -> list Z) (key : Z) (g : Globals)
  : Prop :=
  exists tables,
    generate_s_box shuffle key = Ok tables /\ g = install_s_box tables.

(** A session keyed with [0xDEADBEEF], for concrete runs. *)
Definition demo_globals : Globals :=
  match generate_s_box FisherYates.shuffle 0xDEADBEEF with
  | Ok t => install_s_box t
  | Raise _ => initial_globals
  end.

(** Nibble [i] of [x], as [s_box] and [inverse_s_box] extract it. *)
Definition nibble (x i : Z) : Z := Z.land (Z.shiftr x (i * 4)) 0xF.

(** Every entry of a table is a nibble. *)
Definition nibble_valued (box : list Z) : Prop :=
  Forall (fun v => 0 <= v < 16) box.

(** Four nibbles put back at their positions, as the loop of [s_box]
    accumulates them in [result]. *)
Definition pack_nibbles (a0 a1 a2 a3 : Z) : Z :=
  Z.lor (Z.lor (Z.lor (Z.lor 0 (Z.shiftl a0 (0 * 4))) (Z.shiftl a1 (1 * 4)))
               (Z.shiftl a2 (2 * 4)))
        (Z.shiftl a3 (3 * 4)).

(** The word the substitution loop builds from [x] with the table [tbl]. *)
Definition substitute (tbl : list Z) (x : Z) : Z :=
  pack_nibbles (nth (Z.to_nat (nibble x 0)) tbl 0)
               (nth (Z.to_nat (nibble x 1)) tbl 0)
               (nth (Z.to_nat (nibble x 2)) tbl 0)
               (nth (Z.to_nat (nibble x 3)) tbl 0).

(** The LFSR state after [n] steps. *)
Definition lfsr_advance (n : nat) (state : Z) : Z :=
  Nat.iter n (fun s => fst (lfsr_step s)) state.

(** ** Main routine *)

Section MainRoutine.

(** Python's standard library, as parameters: the seeded shuffle, and the
    UTF-8 codec of [str.encode] and [bytes.decode] (decoding may raise). *)
Variable shuffle : Z -> list Z -> list Z.
Variable encode : string -> list byte.
Variable decode : list byte -> result string.

(** The body of [if __name__ == "__main__":] for the message
    [original_message] and the key [key_32] that [secrets.randbits(32)]
    returned.  The result tells which of the two final branches is taken:
    [true] for the success message. *)
Definition main_routine (original_message : string) (key_32 : Z)
  : result bool :=
  let rounds := 4 in
  tables <- generate_s_box shuffle key_32 ;;
  let g := install_s_box tables in
  let original_bytes := encode original_message in
  ciphertext <- encrypt_message g original_bytes key_32 rounds ;;
  decrypted_bytes <- decrypt_message g ciphertext key_32 rounds ;;
  decrypted_message <- decode decrypted_bytes ;;
  Ok (String.eqb original_message decrypted_message).

End MainRoutine.

(** ** Proof automation *)

(** A case split of an index known to lie in 0..15. *)
Ltac cases16 j :=
  let H := fresh "H" in
  assert (H : j = 0 \/ j = 1 \/ j = 2 \/ j = 3 \/ j = 4 \/ j = 5 \/ j = 6 \/
              j = 7 \/ j = 8 \/ j = 9 \/ j = 10 \/ j = 11 \/ j = 12 \/
              j = 13 \/ j = 14 \/ j = 15) by lia;
  repeat destruct H as [H|H]; subst j.

(** After the bits of [x] are abstracted to a function, a 16-way selection
    evaluates to a test of one bit. *)
Ltac select_bit x :=
  generalize (Z.testbit x); intros bit_of;
  vm_compute;
  repeat match goal with |- context [bit_of ?k] => destruct (bit_of k) end;
  reflexivity.

(** * Properties *)

(** ** The error monad *)

Lemma Ok_inj {A} (a b : A) : Ok a = Ok b -> a = b.
Proof. intros H; injection H; auto. Qed.

Lemma for_each_app {A S} (xs ys : list A) (body : S -> A -> result S) acc :
  for_each (xs ++ ys) body acc = acc' <- for_each xs body acc ;; for_each ys body acc'.
Proof.
  revert acc; induction xs as [|x xs IH]; intros acc; simpl; [reflexivity|].
  destruct (body acc x); simpl; auto.
Qed.

Lemma for_each_ext {A S} (xs : list A) (f g : S -> A -> result S) acc :
  (forall s x, In x xs -> f s x = g s x) ->
  for_each xs f acc = for_each xs g acc.
Proof.
  revert acc; induction xs as [|x xs IH]; intros acc H; simpl; [reflexivity|].
  rewrite H by (left; reflexivity).
  destruct (g acc x); simpl; [apply IH; intros; apply H; right; assumption | reflexivity].
Qed.

(** ** Ranges and indexing *)

Lemma len_nonneg {A} (l : list A) : 0 <= len l.
Proof. unfold len; lia. Qed.

Lemma range_length n : length (range n) = Z.to_nat n.
Proof. unfold range; rewrite length_map, length_seq; reflexivity. Qed.

Lemma In_range n i : In i (range n) <-> 0 <= i < n.
Proof.
  unfold range; rewrite in_map_iff; split.
  - intros [k [<- Hk]]. apply in_seq in Hk. lia.
  - intros Hi. exists (Z.to_nat i). split; [lia | apply in_seq; lia].
Qed.

Lemma getitem_nth {A} (l : list A) (i : Z) (a : A) :
  0 <= i -> nth_error l (Z.to_nat i) = Some a -> getitem l i = Ok a.
Proof.
  intros Hi Hn; unfold getitem.
  destruct (i <? 0) eqn:E; [lia|]. rewrite E, Hn. reflexivity.
Qed.

(** ** Bits *)

Lemma land_1_testbit a k : 0 <= k -> Z.land (Z.shiftr a k) 1 = Z.b2z (Z.testbit a k).
Proof.
  intros Hk. change 1 with (Z.ones 1). rewrite Z.land_ones by lia.
  change (2 ^ 1) with 2. rewrite <- Z.bit0_mod, Z.shiftr_spec by lia.
  reflexivity.
Qed.

Lemma land_ones_range a n : 0 <= n -> 0 <= Z.land a (Z.ones n) < 2 ^ n.
Proof. intros Hn. rewrite Z.land_ones by lia. apply Z.mod_pos_bound. lia. Qed.

Lemma land_FFFF_range a : uint16 (Z.land a 0xFFFF).
Proof. apply (land_ones_range a 16). lia. Qed.

Lemma land_FFFF_id a : uint16 a -> Z.land a 0xFFFF = a.
Proof.
  intros Ha. change 0xFFFF with (Z.ones 16). rewrite Z.land_ones by lia.
  apply Z.mod_small. exact Ha.
Qed.

Lemma testbit_high a n i : 0 <= a < 2 ^ n -> n <= i -> Z.testbit a i = false.
Proof.
  intros Ha Hi. destruct (Z.eq_dec a 0) as [->|Hne]; [apply Z.bits_0|].
  apply Z.bits_above_log2; [lia|].
  assert (Z.log2 a < n); [|lia].
  apply Z.log2_lt_pow2; lia.
Qed.

Lemma bits_range a n :
  0 <= n -> 0 <= a -> (forall i, n <= i -> Z.testbit a i = false) -> a < 2 ^ n.
Proof.
  intros Hn Ha H. destruct (Z.eq_dec a 0) as [->|Hne]; [lia|].
  apply Z.log2_lt_pow2; [lia|].
  destruct (Z.lt_ge_cases (Z.log2 a) n) as [Hlt|Hge]; [assumption|].
  specialize (H (Z.log2 a) Hge). rewrite Z.bit_log2 in H by lia. discriminate.
Qed.

(** ** LFSR *)

Lemma lfsr_step_eq s :
  lfsr_step s =
  (Z.lor (Z.land (Z.shiftr s 1) 0x7FFFFFFF) (Z.shiftl (Z.b2z (feedback s)) 31),
   Z.lor (Z.land (Z.shiftr s 1) 0x7FFFFFFF) (Z.shiftl (Z.b2z (feedback s)) 31)).
Proof.
  unfold lfsr_step, feedback.
  rewrite !land_1_testbit by lia.
  destruct (Z.testbit s 0), (Z.testbit s 1), (Z.testbit s 21), (Z.testbit s 31);
    simpl Z.b2z; simpl Z.lxor; simpl Z.eqb; cbv iota;
    rewrite ?Z.shiftl_0_l, ?Z.lor_0_r; reflexivity.
Qed.

Lemma lfsr_next_testbit s i :
  0 <= i ->
  Z.testbit (Z.lor (Z.land (Z.shiftr s 1) 0x7FFFFFFF)
                   (Z.shiftl (Z.b2z (feedback s)) 31)) i =
  if i <? 31 then Z.testbit s (i + 1)
  else if i =? 31 then feedback s else false.
Proof.
  intros Hi.
  rewrite Z.lor_spec, Z.land_spec, Z.shiftr_spec, Z.shiftl_spec by lia.
  change 0x7FFFFFFF with (Z.ones 31). rewrite Z.testbit_ones_nonneg by lia.
  destruct (Z.ltb_spec i 31) as [Hlt|Hge].
  - rewrite (Z.testbit_neg_r _ (i - 31)) by lia.
    rewrite andb_true_r, orb_false_r. reflexivity.
  - rewrite andb_false_r; simpl.
    destruct (Z.eqb_spec i 31) as [->|Hne].
    + change (31 - 31) with 0. destruct (feedback s); reflexivity.
    + destruct (feedback s); simpl; [|apply Z.bits_0].
      apply (testbit_high 1 1); lia.
Qed.

(** C3: for a 32-bit state [s], [lfsr_step s] takes the XOR of bits 0, 1, 21
    and 31 of [s] as feedback bit, shifts [s] right by one bit with the top
    bit cleared, puts the feedback bit at position 31, and returns that new
    32-bit state twice (as new state and as output word); the all-zero state
    is a fixed point. *)
Theorem lfsr_step_spec (s : Z) (Hs : uint32 s) :
  let s' := Z.lor (Z.land (Z.shiftr s 1) 0x7FFFFFFF)
                  (Z.shiftl (Z.b2z (feedback s)) 31) in
  lfsr_step s = (s', s') /\
  uint32 s' /\
  Z.testbit s' 31 = feedback s /\
  (forall i, 0 <= i < 31 -> Z.testbit s' i = Z.testbit s (i + 1)) /\
  lfsr_step 0 = (0, 0).
Proof.
  intros s'. split; [apply lfsr_step_eq|].
  assert (Hnn : 0 <= s').
  { unfold s'. apply Z.lor_nonneg. split.
    - apply Z.land_nonneg. right. lia.
    - apply Z.shiftl_nonneg. destruct (feedback s); simpl; lia. }
  split; [|split; [|split]].
  - split; [exact Hnn|].
    apply bits_range; [lia | exact Hnn |].
    intros i Hi. unfold s'. rewrite lfsr_next_testbit by lia.
    destruct (Z.ltb_spec i 31); [lia|].
    destruct (Z.eqb_spec i 31); [lia|reflexivity].
  - unfold s'. rewrite lfsr_next_testbit by lia. reflexivity.
  - intros i Hi. unfold s'. rewrite lfsr_next_testbit by lia.
    destruct (Z.ltb_spec i 31); [reflexivity|lia].
  - reflexivity.
Qed.

Lemma lfsr_step_spec_witness :
  uint32 0xDEADBEEF /\ lfsr_step 0xDEADBEEF = (0x6F56DF77, 0x6F56DF77).
Proof.
  split; [unfold uint32; lia|].
  exact (proj1 (lfsr_step_spec 0xDEADBEEF ltac:(unfold uint32; lia))).
Defined.

(** ** Bit permutations *)

Lemma shiftl_b2z_testbit (b : bool) p j :
  0 <= p -> 0 <= j -> Z.testbit (Z.shiftl (Z.b2z b) p) j = (p =? j) && b.
Proof.
  intros Hp Hj. rewrite Z.shiftl_spec by lia.
  destruct (Z.eqb_spec p j) as [->|Hne]; simpl.
  - rewrite Z.sub_diag. apply Z.b2z_bit0.
  - destruct (Z.lt_ge_cases j p).
    + apply Z.testbit_neg_r. lia.
    + apply (testbit_high _ 1); [destruct b; simpl; lia | lia].
Qed.

Lemma for_each_pure {A S} (xs : list A) (body : S -> A -> result S)
  (f : S -> A -> S) acc :
  (forall s a, In a xs -> body s a = Ok (f s a)) ->
  for_each xs body acc = Ok (fold_left f xs acc).
Proof.
  revert acc; induction xs as [|x xs IH]; intros acc H; simpl; [reflexivity|].
  rewrite H by (left; reflexivity). simpl.
  apply IH. intros; apply H; right; assumption.
Qed.

(** Bit [j] of the word built by a loop that copies bit [i] of [x] to
    position [pos i], for every [i] of [idx]. *)
Lemma scatter_testbit (x : Z) (pos : Z -> Z) (idx : list Z) (acc j : Z) :
  0 <= j ->
  (forall i, In i idx -> 0 <= i /\ 0 <= pos i) ->
  Z.testbit
    (fold_left (fun result i =>
                  Z.lor result (Z.shiftl (Z.land (Z.shiftr x i) 1) (pos i)))
               idx acc) j
  = Z.testbit acc j || existsb (fun i => (pos i =? j) && Z.testbit x i) idx.
Proof.
  intros Hj. revert acc. induction idx as [|i idx IH]; intros acc H; simpl.
  - rewrite orb_false_r. reflexivity.
  - destruct (H i (or_introl eq_refl)) as [Hi Hp].
    rewrite IH by (intros; apply H; right; assumption).
    rewrite Z.lor_spec, land_1_testbit, shiftl_b2z_testbit by lia.
    rewrite orb_assoc. reflexivity.
Qed.

Lemma scatter_nonneg (x : Z) (pos : Z -> Z) (idx : list Z) (acc : Z) :
  0 <= acc ->
  (forall i, In i idx -> 0 <= i) ->
  0 <= fold_left (fun result i =>
                    Z.lor result (Z.shiftl (Z.land (Z.shiftr x i) 1) (pos i)))
                 idx acc.
Proof.
  revert acc. induction idx as [|i idx IH]; intros acc Hacc H; simpl; [assumption|].
  apply IH; [|intros; apply H; right; assumption].
  apply Z.lor_nonneg. split; [assumption|].
  apply Z.shiftl_nonneg. rewrite land_1_testbit by (apply H; left; reflexivity).
  destruct (Z.testbit x i); simpl; lia.
Qed.

Lemma p_box_testbit x j :
  0 <= j ->
  Z.testbit (p_box x) j = if j <? 16 then Z.testbit x ((j * 11) mod 16) else false.
Proof.
  intros Hj. unfold p_box.
  rewrite scatter_testbit;
    [|assumption|intros i Hi; apply In_range in Hi; split; [lia|apply Z.mod_pos_bound; lia]].
  rewrite Z.bits_0, orb_false_l.
  destruct (Z.ltb_spec j 16) as [Hlt|Hge].
  - cases16 j; select_bit x.
  - apply not_true_is_false. rewrite existsb_exists. intros [i [Hi Hb]].
    apply In_range in Hi. apply andb_true_iff in Hb. destruct Hb as [Hb _].
    apply Z.eqb_eq in Hb. pose proof (Z.mod_pos_bound (i * 3) 16). lia.
Qed.

Lemma p_box_uint16 x : uint16 (p_box x).
Proof.
  assert (Hnn : 0 <= p_box x).
  { unfold p_box. apply scatter_nonneg; [lia|].
    intros i Hi. apply In_range in Hi. lia. }
  split; [exact Hnn|].
  apply bits_range; [lia|exact Hnn|].
  intros i Hi. rewrite p_box_testbit by lia.
  destruct (Z.ltb_spec i 16); [lia|reflexivity].
Qed.

Lemma mapping_getitem i :
  0 <= i < 16 -> dict_getitem mapping i = Ok ((i * 11) mod 16).
Proof. intros Hi. cases16 i; reflexivity. Qed.

Lemma inverse_p_box_eq y :
  inverse_p_box y =
  Ok (fold_left (fun result i =>
                   Z.lor result
                     (Z.shiftl (Z.land (Z.shiftr y i) 1) ((i * 11) mod 16)))
                (range 16) 0).
Proof.
  unfold inverse_p_box. apply for_each_pure.
  intros s i Hi. apply In_range in Hi.
  rewrite mapping_getitem by assumption. reflexivity.
Qed.

Lemma inverse_p_box_testbit y r j :
  inverse_p_box y = Ok r -> 0 <= j ->
  Z.testbit r j = if j <? 16 then Z.testbit y ((j * 3) mod 16) else false.
Proof.
  rewrite inverse_p_box_eq. intros Hr Hj. apply Ok_inj in Hr. subst r.
  rewrite scatter_testbit;
    [|assumption|intros i Hi; apply In_range in Hi; split; [lia|apply Z.mod_pos_bound; lia]].
  rewrite Z.bits_0, orb_false_l.
  destruct (Z.ltb_spec j 16) as [Hlt|Hge].
  - cases16 j; select_bit y.
  - apply not_true_is_false. rewrite existsb_exists. intros [i [Hi Hb]].
    apply In_range in Hi. apply andb_true_iff in Hb. destruct Hb as [Hb _].
    apply Z.eqb_eq in Hb. pose proof (Z.mod_pos_bound (i * 11) 16). lia.
Qed.

(** C5: [p_box] moves the bit at each position [i] of 0..15 to position
    [(i * 3) mod 16] (and sets no bit above position 15), and
    [inverse_p_box] undoes it on every 16-bit value: its hard-coded table is
    the inverse of the multiply-by-3 bit permutation. *)
Theorem p_box_inverse (x : Z) (Hx : uint16 x) :
  (forall i, 0 <= i < 16 -> Z.testbit (p_box x) ((i * 3) mod 16) = Z.testbit x i) /\
  uint16 (p_box x) /\
  (forall i, 0 <= i < 16 -> dict_getitem mapping ((i * 3) mod 16) = Ok i) /\
  inverse_p_box (p_box x) = Ok x.
Proof.
  split; [|split; [apply p_box_uint16|split]].
  - intros i Hi. pose proof (Z.mod_pos_bound (i * 3) 16 ltac:(lia)) as Hb.
    rewrite p_box_testbit by lia.
    destruct (Z.ltb_spec ((i * 3) mod 16) 16); [|lia].
    f_equal. cases16 i; reflexivity.
  - intros i Hi. cases16 i; reflexivity.
  - rewrite inverse_p_box_eq. f_equal.
    apply Z.bits_inj'. intros j Hj.
    rewrite (inverse_p_box_testbit (p_box x) _ j (inverse_p_box_eq _) Hj).
    destruct (Z.ltb_spec j 16) as [Hlt|Hge].
    + pose proof (Z.mod_pos_bound (j * 3) 16 ltac:(lia)) as Hb.
      rewrite p_box_testbit by lia.
      destruct (Z.ltb_spec ((j * 3) mod 16) 16); [|lia].
      f_equal. cases16 j; reflexivity.
    + symmetry. apply (testbit_high x 16); [exact Hx|lia].
Qed.

Lemma p_box_inverse_witness :
  uint16 0x1234 /\ p_box 0x1234 = 0x9850 /\ inverse_p_box (p_box 0x1234) = Ok 0x1234.
Proof.
  split; [unfold uint16; lia|]. split; [reflexivity|].
  exact (proj2 (proj2 (proj2 (p_box_inverse 0x1234 ltac:(unfold uint16; lia))))).
Defined.

(** ** List assignment *)

Lemma length_update {A} (l : list A) n v : length (update l n v) = length l.
Proof.
  revert n; induction l as [|h t IH]; intros [|n]; simpl; auto.
Qed.

Lemma nth_error_update_eq {A} (l : list A) n v :
  (n < length l)%nat -> nth_error (update l n v) n = Some v.
Proof.
  revert n; induction l as [|h t IH]; intros [|n] H; simpl in *; try lia; auto.
  apply IH. lia.
Qed.

Lemma nth_error_update_neq {A} (l : list A) n m v :
  n <> m -> nth_error (update l n v) m = nth_error l m.
Proof.
  revert n m; induction l as [|h t IH]; intros [|n] [|m] H; simpl; auto;
    try congruence.
Qed.

Lemma setitem_in_range {A} (l : list A) i v :
  0 <= i < len l -> setitem l i v = Ok (update l (Z.to_nat i) v).
Proof.
  intros Hi. unfold setitem.
  destruct (Z.ltb_spec i 0); [lia|].
  destruct (Z.ltb_spec i 0); [lia|].
  destruct (Z.leb_spec (len l) i); [lia|]. reflexivity.
Qed.

(** ** The Fisher-Yates instance is a permutation *)

Lemma update_cons_perm (t : list Z) j a b :
  nth_error t j = Some b -> Permutation (b :: update t j a) (a :: t).
Proof.
  revert j; induction t as [|h t IH]; intros [|j] H; simpl in *; try discriminate.
  - injection H as ->. apply perm_swap.
  - eapply perm_trans; [apply perm_swap|].
    eapply perm_trans; [apply perm_skip, IH, H|]. apply perm_swap.
Qed.

Lemma update_update_perm (l : list Z) i j a b :
  nth_error l i = Some a -> nth_error l j = Some b ->
  Permutation (update (update l i b) j a) l.
Proof.
  revert i j; induction l as [|h t IH]; intros [|i] [|j] Hi Hj;
    simpl in *; try discriminate.
  - injection Hi as ->. injection Hj as ->. apply Permutation_refl.
  - injection Hi as ->. apply update_cons_perm. assumption.
  - injection Hj as ->. apply update_cons_perm. assumption.
  - apply perm_skip. apply IH; assumption.
Qed.

Lemma swap_perm (x : list Z) i j :
  (i < length x)%nat -> (j < length x)%nat ->
  Permutation (FisherYates.swap x i j) x.
Proof.
  intros Hi Hj. unfold FisherYates.swap.
  apply update_update_perm; apply nth_error_nth'; assumption.
Qed.

Lemma fisher_yates_loop_perm i st (x : list Z) :
  (i < length x)%nat -> Permutation x (FisherYates.loop i st x).
Proof.
  revert st x; induction i as [|i IH]; intros st x Hi; [apply Permutation_refl|].
  cbn [FisherYates.loop]. unfold FisherYates.randbelow.
  set (j := (st / 65536) mod (Z.of_nat (S i) + 1)).
  assert (Hj : 0 <= j < Z.of_nat (S i) + 1) by (apply Z.mod_pos_bound; lia).
  assert (Hsw : Permutation (FisherYates.swap x (S i) (Z.to_nat j)) x)
    by (apply swap_perm; lia).
  eapply perm_trans; [apply Permutation_sym, Hsw|].
  apply IH. rewrite (Permutation_length Hsw). lia.
Qed.

Lemma fisher_yates_perm key (l : list Z) :
  Permutation l (FisherYates.shuffle key l).
Proof.
  unfold FisherYates.shuffle. destruct l as [|a l]; [apply Permutation_refl|].
  apply fisher_yates_loop_perm. simpl. lia.
Qed.

(** ** S-box generation *)

Lemma NoDup_range n : NoDup (range n).
Proof.
  unfold range. apply Finite.Injective_map_NoDup; [|apply seq_NoDup].
  intros a b H. lia.
Qed.

Lemma enumerate_eq {A} (l : list A) :
  enumerate l = combine (map Z.of_nat (seq 0 (length l))) l.
Proof. unfold enumerate, range, len. rewrite Nat2Z.id. reflexivity. Qed.

(** The loop [for i, val in enumerate(box): inv_box[val] = i], started at
    index [start] on the rest [l] of the box. *)
Lemma invert_loop (l : list Z) :
  forall (start : nat) (inv0 : list Z),
    NoDup l ->
    (forall v, In v l -> 0 <= v < len inv0) ->
    exists inv,
      for_each (combine (map Z.of_nat (seq start (length l))) l)
               (fun inv_box '(i, val) => setitem inv_box val i) inv0 = Ok inv /\
      length inv = length inv0 /\
      (forall k v, nth_error l k = Some v ->
                   nth_error inv (Z.to_nat v) = Some (Z.of_nat (start + k))) /\
      (forall j, (forall v, In v l -> Z.to_nat v <> j) ->
                 nth_error inv j = nth_error inv0 j).
Proof.
  induction l as [|h t IH]; intros start inv0 Hnd Hin; simpl.
  - exists inv0. repeat split; auto. intros [|k] v; discriminate.
  - inversion Hnd as [|? ? Hnotin Hnd']; subst.
    assert (Hh : 0 <= h < len inv0) by (apply Hin; left; reflexivity).
    rewrite setitem_in_range by assumption. simpl.
    destruct (IH (S start) (update inv0 (Z.to_nat h) (Z.of_nat start)) Hnd')
      as [inv [Hrun [Hlen [Hset Hkeep]]]].
    { intros v Hv. unfold len. rewrite length_update. apply Hin. right. assumption. }
    exists inv. split; [exact Hrun|]. split; [rewrite Hlen; apply length_update|].
    split.
    + intros [|k] v Hk; simpl in Hk.
      * injection Hk as <-. rewrite Hkeep.
        -- rewrite nth_error_update_eq by (unfold len in Hh; lia).
           f_equal. lia.
        -- intros v Hv Heq.
           assert (0 <= v < len inv0) by (apply Hin; right; assumption).
           apply Hnotin. replace h with v by lia. assumption.
      * rewrite (Hset k v Hk). f_equal. lia.
    + intros j Hj. rewrite Hkeep by (intros v Hv; apply Hj; right; assumption).
      apply nth_error_update_neq. apply Hj. left. reflexivity.
Qed.

Section SBoxGeneratorProperties.

Variable shuffle : Z -> list Z -> list Z.
Hypothesis shuffle_permutes : forall key l, Permutation l (shuffle key l).

Lemma generate_s_box_tables (s : Z) :
  exists sbox invSbox,
    generate_s_box shuffle s = Ok (sbox, invSbox) /\
    Permutation (range 16) sbox /\
    length sbox = 16%nat /\ length invSbox = 16%nat /\
    (forall k v, nth_error sbox k = Some v ->
                 0 <= v < 16 /\ nth_error invSbox (Z.to_nat v) = Some (Z.of_nat k)).
Proof.
  unfold generate_s_box.
  pose proof (shuffle_permutes s (range 16)) as Hperm.
  set (box := shuffle s (range 16)) in *.
  assert (Hlen : length box = 16%nat)
    by (rewrite <- (Permutation_length Hperm); reflexivity).
  assert (Hin : forall v, In v box -> 0 <= v < 16).
  { intros v Hv. apply In_range. eapply Permutation_in; [|exact Hv].
    apply Permutation_sym. exact Hperm. }
  destruct (invert_loop box 0 (repeat 0 16)) as [inv [Hrun [Hl [Hset _]]]].
  - eapply Permutation_NoDup; [exact Hperm|apply NoDup_range].
  - intros v Hv. unfold len. rewrite repeat_length. apply Hin, Hv.
  - exists box, inv. rewrite enumerate_eq, Hrun. simpl.
    split; [reflexivity|]. split; [exact Hperm|]. split; [exact Hlen|].
    split; [rewrite Hl; apply repeat_length|].
    intros k v Hk. split; [apply Hin; eapply nth_error_In; exact Hk|].
    apply (Hset k v Hk).
Qed.

End SBoxGeneratorProperties.

(** C4: whatever seeded shuffle is used (any [shuffle] that rearranges its
    list), [generate_s_box s] returns a pair [(sbox, invSbox)] where [sbox]
    is a permutation of 0..15 and [invSbox[sbox[i]] == i] for every [i] of
    0..15; a second call with the same seed returns the same tables. *)
Theorem generate_s_box_bijective
  (shuffle : Z -> list Z -> list Z)
  (shuffle_permutes : forall key l, Permutation l (shuffle key l))
  (s : Z) :
  exists sbox invSbox,
    generate_s_box shuffle s = Ok (sbox, invSbox) /\
    Permutation (range 16) sbox /\
    (forall i, 0 <= i < 16 ->
       exists v, getitem sbox i = Ok v /\ getitem invSbox v = Ok i) /\
    (forall s', s' = s -> generate_s_box shuffle s' = Ok (sbox, invSbox)).
Proof.
  destruct (generate_s_box_tables shuffle shuffle_permutes s)
    as [sbox [invSbox [Hgen [Hperm [Hlen [Hlen' Hinv]]]]]].
  exists sbox, invSbox. split; [exact Hgen|]. split; [exact Hperm|]. split.
  - intros i Hi.
    destruct (nth_error sbox (Z.to_nat i)) as [v|] eqn:Hv.
    + exists v. split; [apply getitem_nth; [lia|exact Hv]|].
      destruct (Hinv _ _ Hv) as [Hr Hn].
      apply getitem_nth; [lia|]. rewrite Hn. f_equal. lia.
    + apply nth_error_None in Hv. lia.
  - intros s' ->. exact Hgen.
Qed.

Lemma generate_s_box_bijective_witness :
  exists sbox invSbox,
    generate_s_box FisherYates.shuffle 0xDEADBEEF = Ok (sbox, invSbox) /\
    Permutation (range 16) sbox /\
    (forall i, 0 <= i < 16 ->
       exists v, getitem sbox i = Ok v /\ getitem invSbox v = Ok i) /\
    (forall s', s' = 0xDEADBEEF ->
       generate_s_box FisherYates.shuffle s' = Ok (sbox, invSbox)).
Proof.
  exact (generate_s_box_bijective FisherYates.shuffle fisher_yates_perm 0xDEADBEEF).
Defined.

(** ** Bytes and integers *)

Lemma int_of_byte_range b : 0 <= int_of_byte b < 256.
Proof.
  unfold int_of_byte. pose proof (Byte.to_N_bounded b). lia.
Qed.

Lemma byte_of_int_of_byte b : byte_of_int (int_of_byte b) = Ok b.
Proof.
  unfold byte_of_int. pose proof (int_of_byte_range b).
  destruct (Z.ltb_spec (int_of_byte b) 0); [lia|].
  unfold int_of_byte. rewrite N2Z.id, Byte.of_to_N. reflexivity.
Qed.

Lemma byte_of_int_in_range v :
  0 <= v < 256 -> exists b, byte_of_int v = Ok b /\ int_of_byte b = v.
Proof.
  intros Hv. unfold byte_of_int.
  destruct (Z.ltb_spec v 0); [lia|].
  destruct (Byte.of_N (Z.to_N v)) as [b|] eqn:E.
  - exists b. split; [reflexivity|].
    unfold int_of_byte. apply Byte.to_of_N in E. rewrite E. lia.
  - apply Byte.of_N_None_iff in E. lia.
Qed.

Lemma bytes_of_ints_repeat v b n :
  byte_of_int v = Ok b -> bytes_of_ints (repeat v n) = Ok (repeat b n).
Proof.
  intros Hb. induction n as [|n IH]; simpl; [reflexivity|].
  rewrite Hb, IH. reflexivity.
Qed.

(** ** Negative indices and slices *)

Lemma getitem_last {A} (l : list A) (d : A) :
  l <> [] -> getitem l (-1) = Ok (last l d).
Proof.
  intros Hne. destruct (exists_last Hne) as [l' [a ->]].
  rewrite last_last. unfold getitem, len. rewrite length_app.
  change (-1 <? 0) with true. cbv iota.
  change (length [a]) with 1%nat.
  destruct (Z.ltb_spec (-1 + Z.of_nat (length l' + 1)) 0); [lia|].
  replace (Z.to_nat (-1 + Z.of_nat (length l' + 1))) with (length l') by lia.
  rewrite nth_error_app2 by lia. rewrite Nat.sub_diag. reflexivity.
Qed.

Lemma slice_from_neg {A} (l : list A) n :
  1 <= n -> slice_from l (- n) = last_n n l.
Proof.
  intros Hn. unfold slice_from, last_n, slice_index, len.
  destruct (Z.ltb_spec (- n) 0); [|lia]. f_equal. lia.
Qed.

Lemma slice_to_neg {A} (l : list A) n :
  1 <= n -> slice_to l (- n) = strip_n n l.
Proof.
  intros Hn. unfold slice_to, strip_n, slice_index, len.
  destruct (Z.ltb_spec (- n) 0); [|lia]. f_equal. lia.
Qed.

Lemma existsb_differs_false (n : Z) (l : list byte) :
  existsb (fun p => negb (int_of_byte p =? n)) l = false <->
  Forall (fun p => int_of_byte p = n) l.
Proof.
  induction l as [|a l IH]; simpl.
  - split; auto.
  - rewrite orb_false_iff, IH, negb_false_iff, Z.eqb_eq. split.
    + intros [H1 H2]. constructor; assumption.
    + intros H. inversion H; subst. split; auto.
Qed.

(** ** Padding *)

(** What [unpad_pkcs7] does on a buffer that is not empty. *)
Lemma unpad_pkcs7_nonempty (d : list byte) (blockSize : Z) :
  d <> [] ->
  let n := int_of_byte (last d "000"%byte) in
  unpad_pkcs7 d blockSize =
  if (n <? 1) || (blockSize <? n) then Raise InvalidPadding
  else if existsb (fun p => negb (int_of_byte p =? n)) (last_n n d)
       then Raise InvalidPadding
       else Ok (strip_n n d).
Proof.
  intros Hd n. unfold unpad_pkcs7.
  rewrite (getitem_last d "000"%byte Hd). simpl. fold n.
  destruct (Z.ltb_spec n 1); simpl; [reflexivity|].
  destruct (blockSize <? n); [reflexivity|].
  rewrite slice_from_neg, slice_to_neg by lia. reflexivity.
Qed.

(** C7: on a non-empty buffer [d] whose last byte holds [n], [unpad_pkcs7]
    raises the invalid-padding error exactly when [n < 1], or
    [n > blockSize], or the final [n] bytes of [d] are not all equal to [n];
    otherwise it returns [d] without its last [n] bytes.  The final [n]
    bytes are the slice [d[-n:]], which is all of [d] when [d] is shorter
    than [n]. *)
Theorem unpad_pkcs7_spec (d : list byte) (blockSize n : Z)
  (Hd : d <> []) (Hn : int_of_byte (last d "000"%byte) = n) :
  (unpad_pkcs7 d blockSize = Raise InvalidPadding <->
   (n < 1 \/ n > blockSize \/
    ~ Forall (fun p => int_of_byte p = n) (last_n n d))) /\
  (unpad_pkcs7 d blockSize <> Raise InvalidPadding ->
   unpad_pkcs7 d blockSize = Ok (strip_n n d)).
Proof.
  rewrite (unpad_pkcs7_nonempty d blockSize Hd). cbv zeta. rewrite Hn.
  destruct (Z.ltb_spec n 1) as [H1|H1]; simpl.
  { split; [split; auto | intros H; congruence]. }
  destruct (Z.ltb_spec blockSize n) as [H2|H2]; simpl.
  { split; [split; [intros _; right; left; lia | auto] | intros H; congruence]. }
  destruct (existsb _ (last_n n d)) eqn:E.
  - split; [|intros H; congruence].
    split; [|auto]. intros _. right. right.
    intros HF. apply existsb_differs_false in HF. congruence.
  - split; [|reflexivity].
    split; [discriminate|].
    apply existsb_differs_false in E.
    intros [H|[H|H]]; [lia|lia|contradiction].
Qed.

Lemma unpad_pkcs7_spec_witness :
  unpad_pkcs7 ["a"; "002"; "002"]%byte 4 = Ok ["a"%byte] /\
  unpad_pkcs7 ["a"; "003"; "002"]%byte 4 = Raise InvalidPadding.
Proof.
  split.
  - apply (unpad_pkcs7_spec ["a"; "002"; "002"]%byte 4 2);
      [discriminate | reflexivity | discriminate].
  - apply (unpad_pkcs7_spec ["a"; "003"; "002"]%byte 4 2);
      [discriminate | reflexivity |].
    right. right. intros H. inversion H as [|? ? Hh Ht]. discriminate Hh.
Defined.

Lemma pad_pkcs7_4 (m : list byte) :
  let n := 4 - (len m mod 4) in
  exists b, int_of_byte b = n /\
            pad_pkcs7 m 4 = Ok (m ++ repeat b (Z.to_nat n)).
Proof.
  intros n. pose proof (Z.mod_pos_bound (len m) 4 ltac:(lia)) as Hmod.
  destruct (byte_of_int_in_range n ltac:(unfold n; lia)) as [b [Hb Hv]].
  exists b. split; [exact Hv|].
  unfold pad_pkcs7. simpl (4 =? 0). cbv iota. fold n.
  destruct (Z.eqb_spec n 0); [unfold n in *; lia|].
  rewrite (bytes_of_ints_repeat n b _ Hb). reflexivity.
Qed.

Lemma unpad_padded (m : list byte) (b : byte) (blockSize : Z) :
  1 <= int_of_byte b <= blockSize ->
  unpad_pkcs7 (m ++ repeat b (Z.to_nat (int_of_byte b))) blockSize = Ok m.
Proof.
  intros Hb. set (n := int_of_byte b) in *.
  assert (Hk : exists k, Z.to_nat n = S k) by (exists (pred (Z.to_nat n)); lia).
  destruct Hk as [k Hk].
  assert (Hlast : last (m ++ repeat b (Z.to_nat n)) "000"%byte = b).
  { rewrite Hk. replace (S k) with (k + 1)%nat by lia.
    rewrite repeat_app, app_assoc. apply last_last. }
  rewrite unpad_pkcs7_nonempty.
  2:{ rewrite Hk. simpl. intros H. apply app_eq_nil in H. destruct H; discriminate. }
  cbv zeta. rewrite Hlast. fold n.
  destruct (Z.ltb_spec n 1); [lia|]. destruct (Z.ltb_spec blockSize n); [lia|]. simpl.
  assert (Hsplit : (length (m ++ repeat b (Z.to_nat n)) - Z.to_nat n = length m)%nat).
  { rewrite length_app, repeat_length. lia. }
  unfold last_n, strip_n. rewrite Hsplit.
  rewrite skipn_app, Nat.sub_diag, skipn_all. simpl.
  rewrite firstn_app, Nat.sub_diag, firstn_all. simpl. rewrite app_nil_r.
  replace (existsb _ _) with false; [reflexivity|].
  symmetry. apply existsb_differs_false. apply Forall_forall.
  intros p Hp. apply repeat_spec in Hp. subst p. reflexivity.
Qed.

Lemma padded_length_aligned (m : list byte) (b : byte) :
  len (m ++ repeat b (Z.to_nat (4 - len m mod 4))) mod 4 = 0.
Proof.
  pose proof (Z.mod_pos_bound (len m) 4 ltac:(lia)) as Hmod.
  unfold len in *.
  rewrite length_app, repeat_length, Nat2Z.inj_add, Z2Nat.id by lia.
  set (n := Z.of_nat (length m)) in *.
  replace (n + (4 - n mod 4)) with (n - n mod 4 + 1 * 4) by lia.
  rewrite Z.mod_add by lia. rewrite Zminus_mod_idemp_r, Z.sub_diag. reflexivity.
Qed.

(** Padding to 4 bytes returns a block-aligned buffer that unpads to the
    data. *)
Lemma pad_then_unpad (m : list byte) :
  exists padded,
    pad_pkcs7 m 4 = Ok padded /\
    len padded mod 4 = 0 /\
    unpad_pkcs7 padded 4 = Ok m.
Proof.
  pose proof (Z.mod_pos_bound (len m) 4 ltac:(lia)) as Hmod.
  destruct (pad_pkcs7_4 m) as [b [Hv Hpad]]. cbv zeta in Hv, Hpad.
  exists (m ++ repeat b (Z.to_nat (4 - len m mod 4))).
  split; [exact Hpad|]. split; [apply padded_length_aligned|].
  rewrite <- Hv. apply unpad_padded. lia.
Qed.

(** C6: [pad_pkcs7 m 4] appends [n] bytes that each hold [n], where
    [n = 4 - (len m mod 4)], which is 4 when the length is already a
    multiple of 4 and always lies between 1 and 4; the padded length is a
    multiple of 4; and [unpad_pkcs7] gives [m] back. *)
Theorem pad_unpad_pkcs7 (m : list byte) :
  let n := 4 - (len m mod 4) in
  exists b padded,
    int_of_byte b = n /\
    pad_pkcs7 m 4 = Ok padded /\
    padded = m ++ repeat b (Z.to_nat n) /\
    1 <= n <= 4 /\
    (len m mod 4 = 0 -> n = 4) /\
    len padded mod 4 = 0 /\
    unpad_pkcs7 padded 4 = Ok m.
Proof.
  intros n. pose proof (Z.mod_pos_bound (len m) 4 ltac:(lia)) as Hmod.
  destruct (pad_pkcs7_4 m) as [b [Hv Hpad]]. fold n in Hv, Hpad.
  exists b, (m ++ repeat b (Z.to_nat n)).
  split; [exact Hv|]. split; [exact Hpad|]. split; [reflexivity|].
  split; [unfold n; lia|]. split; [unfold n; lia|]. split.
  - apply padded_length_aligned.
  - rewrite <- Hv. apply unpad_padded. rewrite Hv. unfold n. lia.
Qed.

(** C10: on an empty ciphertext [decrypt_message] raises [IndexError], which
    is not the invalid-padding error: no block is processed, and
    [unpad_pkcs7] indexes the last byte of an empty buffer before any
    padding check.  This holds whatever the S-box globals hold. *)
Theorem decrypt_message_empty (g : Globals) (key_32 rounds block_size : Z) :
  unpad_pkcs7 [] block_size = Raise IndexError /\
  decrypt_message g [] key_32 rounds = Raise IndexError /\
  decrypt_message g [] key_32 rounds <> Raise InvalidPadding.
Proof.
  split; [reflexivity|]. split; [reflexivity|]. discriminate.
Qed.

(** ** Halves of a block *)

Lemma testbit_land_FFFF a i :
  0 <= i -> Z.testbit (Z.land a 0xFFFF) i = Z.testbit a i && (i <? 16).
Proof.
  intros Hi. change 0xFFFF with (Z.ones 16).
  rewrite Z.land_spec, Z.testbit_ones_nonneg by lia. reflexivity.
Qed.

Lemma lxor_uint16 a b : uint16 a -> uint16 b -> uint16 (Z.lxor a b).
Proof.
  intros Ha Hb.
  assert (Hnn : 0 <= Z.lxor a b) by (apply Z.lxor_nonneg; unfold uint16 in *; lia).
  split; [exact Hnn|]. apply bits_range; [lia|exact Hnn|].
  intros i Hi. rewrite Z.lxor_spec.
  rewrite (testbit_high a 16), (testbit_high b 16) by (assumption || lia).
  reflexivity.
Qed.

Lemma lxor_cancel a f : Z.lxor (Z.lxor a f) f = a.
Proof. rewrite Z.lxor_assoc, Z.lxor_nilpotent, Z.lxor_0_r. reflexivity. Qed.

Lemma join_halves_uint32 L R :
  uint16 L -> uint16 R -> uint32 (Z.lor (Z.shiftl L 16) R).
Proof.
  intros HL HR.
  assert (Hnn : 0 <= Z.lor (Z.shiftl L 16) R).
  { apply Z.lor_nonneg. split; [apply Z.shiftl_nonneg|]; unfold uint16 in *; lia. }
  split; [exact Hnn|]. apply bits_range; [lia|exact Hnn|].
  intros i Hi. rewrite Z.lor_spec, Z.shiftl_spec by lia.
  rewrite (testbit_high L 16), (testbit_high R 16) by (assumption || lia).
  reflexivity.
Qed.

Lemma high_half_of_join L R :
  uint16 L -> uint16 R ->
  Z.land (Z.shiftr (Z.lor (Z.shiftl L 16) R) 16) 0xFFFF = L.
Proof.
  intros HL HR. apply Z.bits_inj'. intros i Hi.
  rewrite testbit_land_FFFF, Z.shiftr_spec, Z.lor_spec, Z.shiftl_spec by lia.
  replace (i + 16 - 16) with i by lia.
  rewrite (testbit_high R 16 (i + 16)) by (assumption || lia).
  rewrite orb_false_r.
  destruct (Z.ltb_spec i 16); [apply andb_true_r|].
  rewrite (testbit_high L 16) by (assumption || lia). reflexivity.
Qed.

Lemma low_half_of_join L R :
  uint16 L -> uint16 R -> Z.land (Z.lor (Z.shiftl L 16) R) 0xFFFF = R.
Proof.
  intros HL HR. apply Z.bits_inj'. intros i Hi.
  rewrite testbit_land_FFFF, Z.lor_spec, Z.shiftl_spec by lia.
  destruct (Z.ltb_spec i 16).
  - rewrite (Z.testbit_neg_r L (i - 16)) by lia. rewrite andb_true_r. reflexivity.
  - rewrite (testbit_high R 16) by (assumption || lia). apply andb_false_r.
Qed.

Lemma join_of_halves b :
  uint32 b ->
  Z.lor (Z.shiftl (Z.land (Z.shiftr b 16) 0xFFFF) 16) (Z.land b 0xFFFF) = b.
Proof.
  intros Hb. apply Z.bits_inj'. intros i Hi.
  rewrite Z.lor_spec, Z.shiftl_spec, (testbit_land_FFFF b i) by lia.
  destruct (Z.ltb_spec i 16).
  - rewrite (Z.testbit_neg_r _ (i - 16)) by lia. rewrite andb_true_r. reflexivity.
  - rewrite testbit_land_FFFF, Z.shiftr_spec by lia.
    replace (i - 16 + 16) with i by lia. rewrite andb_false_r, orb_false_r.
    destruct (Z.ltb_spec (i - 16) 16); [apply andb_true_r|].
    rewrite (testbit_high b 32) by (assumption || lia). reflexivity.
Qed.

(** ** Substitution and the round function *)

Lemma s_box_total (g : Globals) (x : Z) :
  session_ready g -> exists v, s_box g x = Ok v.
Proof.
  intros [box [Hbox Hlen]].
  exists (fold_left
            (fun result i =>
               Z.lor result
                 (Z.shiftl (nth (Z.to_nat (Z.land (Z.shiftr x (i * 4)) 0xF)) box 0)
                           (i * 4)))
            (range 4) 0).
  unfold s_box. apply for_each_pure. intros s i _.
  rewrite Hbox. cbn [subscript].
  pose proof (land_ones_range (Z.shiftr x (i * 4)) 4 ltac:(lia)) as Hn.
  change (Z.ones 4) with 0xF in Hn. change (2 ^ 4) with 16 in Hn.
  rewrite (getitem_nth box _ (nth (Z.to_nat (Z.land (Z.shiftr x (i * 4)) 0xF)) box 0));
    [reflexivity | lia | apply nth_error_nth'; lia].
Qed.

Lemma round_function_total (g : Globals) (x subkey : Z) :
  session_ready g -> exists F, round_function g x subkey = Ok F /\ uint16 F.
Proof.
  intros Hg. destruct (s_box_total g x Hg) as [sx Hsx].
  exists (Z.lxor (p_box sx) (Z.land subkey 0xFFFF)).
  unfold round_function. rewrite Hsx. split; [reflexivity|].
  apply lxor_uint16; [apply p_box_uint16 | apply land_FFFF_range].
Qed.

(** ** The key schedule *)

Lemma subkey_schedule_length s rounds :
  length (snd (subkey_schedule s rounds)) = Z.to_nat rounds.
Proof.
  unfold subkey_schedule. rewrite <- (range_length rounds).
  assert (H : forall l st (acc : list Z),
             length (snd (fold_left
               (fun '(current_state, subkeys) (_ : Z) =>
                  let '(current_state, out_word) := lfsr_step current_state in
                  (current_state, subkeys ++ [Z.land out_word 65535]))
               l (st, acc))) = (length acc + length l)%nat).
  { induction l as [|a l IH]; intros st acc; cbn [fold_left length snd]; [lia|].
    rewrite lfsr_step_eq. rewrite IH, length_app. cbn [length]. lia. }
  rewrite H. reflexivity.
Qed.

(** Indexing [l[i]] for [i] in [range(len(l))] visits the elements of [l]
    in order. *)
Lemma for_each_index {A S} (f : S -> A -> result S) (suf : list A) :
  forall (pre : list A) (acc : S),
    for_each (map Z.of_nat (seq (length pre) (length suf)))
             (fun s i => x <- getitem (pre ++ suf) i ;; f s x) acc
    = for_each suf f acc.
Proof.
  induction suf as [|a suf IH]; intros pre acc; cbn [length seq map for_each];
    [reflexivity|].
  rewrite (getitem_nth (pre ++ a :: suf) _ a);
    [|lia|rewrite Nat2Z.id, nth_error_app2, Nat.sub_diag by lia; reflexivity].
  cbn [bind]. destruct (f acc a) as [acc'|e]; cbn [bind]; [|reflexivity].
  specialize (IH (pre ++ [a]) acc').
  rewrite length_app, Nat.add_1_r, <- app_assoc in IH. exact IH.
Qed.

Lemma for_each_range {A S} (f : S -> A -> result S) (l : list A) rounds acc :
  length l = Z.to_nat rounds ->
  for_each (range rounds) (fun s i => x <- getitem l i ;; f s x) acc
  = for_each l f acc.
Proof.
  intros Hl. unfold range. rewrite <- Hl. apply (for_each_index f l []).
Qed.

(** ** The Feistel rounds and their inverse *)

Section Feistel.

Variable g : Globals.
Hypothesis ready : session_ready g.

Lemma feistel_rounds_invert (subkeys : list Z) :
  forall L R, uint16 L -> uint16 R ->
    exists L' R',
      for_each subkeys
        (fun '(L, R) subkey =>
           F <- round_function g R subkey ;;
           let new_L := R in
           let new_R := Z.lxor L F in
           Ok (new_L, new_R)) (L, R) = Ok (L', R') /\
      uint16 L' /\ uint16 R' /\
      for_each (rev subkeys)
        (fun '(L, R) subkey =>
           F <- round_function g L subkey ;;
           let new_R := L in
           let new_L := Z.lxor R F in
           Ok (new_L, new_R)) (L', R') = Ok (L, R).
Proof.
  cbv zeta.
  induction subkeys as [|k ks IH]; intros L R HL HR; cbn [for_each rev].
  - exists L, R. auto.
  - destruct (round_function_total g R k ready) as [F [HF HFr]].
    rewrite HF. cbn [bind].
    destruct (IH R (Z.lxor L F) HR (lxor_uint16 _ _ HL HFr))
      as [L' [R' [Henc [HL' [HR' Hdec]]]]].
    exists L', R'. split; [exact Henc|]. split; [exact HL'|]. split; [exact HR'|].
    rewrite for_each_app, Hdec. cbn [bind for_each]. rewrite HF. cbn [bind].
    rewrite lxor_cancel. reflexivity.
Qed.

Lemma decrypt_rounds_total (subkeys : list Z) :
  forall L R, uint16 L -> uint16 R ->
    exists L' R',
      for_each subkeys
        (fun '(L, R) subkey =>
           F <- round_function g L subkey ;;
           let new_R := L in
           let new_L := Z.lxor R F in
           Ok (new_L, new_R)) (L, R) = Ok (L', R') /\
      uint16 L' /\ uint16 R'.
Proof.
  cbv zeta.
  induction subkeys as [|k ks IH]; intros L R HL HR; cbn [for_each].
  - exists L, R. auto.
  - destruct (round_function_total g L k ready) as [F [HF HFr]].
    rewrite HF. cbn [bind]. apply IH; [apply lxor_uint16|]; assumption.
Qed.

(** The encryption loop indexes [subkeys[i]] for [i] in [range(rounds)]:
    it visits the subkeys in generation order. *)
Lemma encrypt_rounds_by_index (subkeys : list Z) (rounds : Z) (LR : Z * Z) :
  length subkeys = Z.to_nat rounds ->
  for_each (range rounds)
    (fun '(L, R) i =>
       subkey <- getitem subkeys i ;;
       F <- round_function g R subkey ;;
       let new_L := R in
       let new_R := Z.lxor L F in
       Ok (new_L, new_R)) LR
  = for_each subkeys
      (fun '(L, R) subkey =>
         F <- round_function g R subkey ;;
         let new_L := R in
         let new_R := Z.lxor L F in
         Ok (new_L, new_R)) LR.
Proof.
  intros Hlen.
  rewrite <- (for_each_range
                (fun '(L, R) subkey =>
                   F <- round_function g R subkey ;;
                   let new_L := R in
                   let new_R := Z.lxor L F in
                   Ok (new_L, new_R)) subkeys rounds LR Hlen).
  apply for_each_ext. intros [L R] i _. reflexivity.
Qed.

(** [encrypt_block] returns, and [decrypt_block] takes its cipher block
    back to the block; both leave the LFSR in the state the key schedule
    reached. *)
Lemma block_roundtrip (b s rounds : Z) :
  uint32 b ->
  exists c,
    encrypt_block g b s rounds = Ok (c, fst (subkey_schedule s rounds)) /\
    uint32 c /\
    decrypt_block g c s rounds = Ok (b, fst (subkey_schedule s rounds)).
Proof.
  intros Hb. unfold encrypt_block, decrypt_block.
  pose proof (subkey_schedule_length s rounds) as Hlen.
  destruct (subkey_schedule s rounds) as [st subkeys].
  cbn [snd] in Hlen. cbn [fst].
  destruct (feistel_rounds_invert subkeys
              (Z.land (Z.shiftr b 16) 0xFFFF) (Z.land b 0xFFFF)
              (land_FFFF_range _) (land_FFFF_range _))
    as [L' [R' [Henc [HL' [HR' Hdec]]]]].
  cbv zeta in Henc, Hdec.
  exists (Z.lor (Z.shiftl L' 16) R').
  split; [|split].
  - rewrite (encrypt_rounds_by_index subkeys rounds _ Hlen). cbv zeta.
    rewrite Henc. cbn [bind]. rewrite !land_FFFF_id by assumption. reflexivity.
  - apply join_halves_uint32; assumption.
  - rewrite high_half_of_join, low_half_of_join by assumption.
    rewrite Hdec. cbn [bind].
    rewrite (land_FFFF_id (Z.land (Z.shiftr b 16) 0xFFFF)),
            (land_FFFF_id (Z.land b 0xFFFF)) by apply land_FFFF_range.
    rewrite join_of_halves by assumption. reflexivity.
Qed.

(** [decrypt_block] returns on every block, with a 32-bit result and the
    LFSR state of the key schedule. *)
Lemma decrypt_block_total (c s rounds : Z) :
  exists b,
    decrypt_block g c s rounds = Ok (b, fst (subkey_schedule s rounds)) /\
    uint32 b.
Proof.
  unfold decrypt_block.
  destruct (subkey_schedule s rounds) as [st subkeys]. cbn [fst].
  destruct (decrypt_rounds_total (rev subkeys)
              (Z.land (Z.shiftr c 16) 0xFFFF) (Z.land c 0xFFFF)
              (land_FFFF_range _) (land_FFFF_range _))
    as [L' [R' [Hdec [HL' HR']]]].
  cbv zeta in Hdec.
  exists (Z.lor (Z.shiftl L' 16) R'). rewrite Hdec. cbn [bind].
  rewrite !land_FFFF_id by assumption.
  split; [reflexivity | apply join_halves_uint32; assumption].
Qed.

End Feistel.

(** C2: with the S-box table of the session in place, for every 32-bit
    block [b], 32-bit seed [s] and [rounds >= 1], [encrypt_block] returns a
    cipher block that [decrypt_block] maps back to [b] under the same seed
    and round count; and the final LFSR state of [encrypt_block] is the
    final LFSR state of [decrypt_block] on any block [b'] with that seed
    and round count. *)
Theorem encrypt_block_decrypt_block (g : Globals) (b s rounds : Z)
  (Hg : session_ready g) (Hb : uint32 b) (Hs : uint32 s) (Hr : 1 <= rounds) :
  exists c st,
    encrypt_block g b s rounds = Ok (c, st) /\
    decrypt_block g c s rounds = Ok (b, st) /\
    (forall b', exists p, decrypt_block g b' s rounds = Ok (p, st)).
Proof.
  destruct (block_roundtrip g Hg b s rounds Hb) as [c [Henc [_ Hdec]]].
  exists c, (fst (subkey_schedule s rounds)).
  split; [exact Henc|]. split; [exact Hdec|].
  intros b'. destruct (decrypt_block_total g Hg b' s rounds) as [p [Hp _]].
  exists p. exact Hp.
Qed.

(** ** Bytes to blocks and back *)

Lemma fold_left_snoc_map {A B} (f : A -> B) (l : list A) (init : list B) :
  fold_left (fun acc i => acc ++ [f i]) l init = init ++ map f l.
Proof.
  revert init; induction l as [|a l IH]; intros init; cbn [fold_left map].
  - rewrite app_nil_r. reflexivity.
  - rewrite IH, <- app_assoc. reflexivity.
Qed.

Lemma slice_chunk {A} (l : list A) (i : Z) :
  0 <= i -> slice l i (i + 4) = firstn 4 (skipn (Z.to_nat i) l).
Proof.
  intros Hi. unfold slice, slice_index, len.
  destruct (Z.ltb_spec i 0); [lia|]. destruct (Z.ltb_spec (i + 4) 0); [lia|].
  destruct (Z.le_gt_cases i (Z.of_nat (length l))) as [Hle|Hgt].
  - rewrite (Z.min_l i) by lia.
    destruct (Z.le_gt_cases (i + 4) (Z.of_nat (length l))).
    + rewrite Z.min_l by lia. f_equal. lia.
    + rewrite Z.min_r by lia.
      rewrite !firstn_all2; [reflexivity | |]; rewrite length_skipn; lia.
  - rewrite !Z.min_r by lia. rewrite Nat2Z.id, Nat.sub_diag.
    rewrite !skipn_all2 by lia. reflexivity.
Qed.

(** The number of blocks: [len(range(0, n, 4))]. *)
Lemma bytes_to_blocks_map (data : list byte) :
  bytes_to_blocks data =
  map (fun k => int_from_bytes_big (firstn 4 (skipn (4 * k) data)))
      (seq 0 (Z.to_nat ((len data + 3) / 4))).
Proof.
  unfold bytes_to_blocks, range_step.
  rewrite (fold_left_snoc_map (fun i => int_from_bytes_big (slice data i (i + 4)))).
  cbn [app]. rewrite map_map.
  replace (len data - 0 + 4 - 1) with (len data + 3) by lia.
  apply map_ext. intros k. rewrite slice_chunk by lia.
  do 3 f_equal. lia.
Qed.

Lemma bytes_to_blocks_length (data : list byte) :
  length (bytes_to_blocks data) = Z.to_nat ((len data + 3) / 4).
Proof. rewrite bytes_to_blocks_map, length_map, length_seq. reflexivity. Qed.

Lemma bytes_to_blocks_nth (data : list byte) (k : nat) :
  (k < length (bytes_to_blocks data))%nat ->
  nth_error (bytes_to_blocks data) k =
  Some (int_from_bytes_big (firstn 4 (skipn (4 * k) data))).
Proof.
  rewrite bytes_to_blocks_length. intros Hk.
  rewrite bytes_to_blocks_map.
  rewrite nth_error_map, nth_error_seq.
  destruct (Nat.ltb_spec k (Z.to_nat ((len data + 3) / 4))); [|lia].
  reflexivity.
Qed.

Lemma bytes_to_blocks_cons4 (a b c d : byte) (rest : list byte) :
  bytes_to_blocks (a :: b :: c :: d :: rest) =
  int_from_bytes_big [a; b; c; d] :: bytes_to_blocks rest.
Proof.
  rewrite !bytes_to_blocks_map.
  replace (Z.to_nat ((len (a :: b :: c :: d :: rest) + 3) / 4))
    with (S (Z.to_nat ((len rest + 3) / 4))).
  2:{ unfold len. cbn [length].
      replace (Z.of_nat (S (S (S (S (length rest))))) + 3)
        with (Z.of_nat (length rest) + 3 + 1 * 4) by lia.
      rewrite Z.div_add by lia.
      pose proof (Z.div_pos (Z.of_nat (length rest) + 3) 4). lia. }
  cbn [seq map]. f_equal.
  rewrite <- seq_shift, map_map. apply map_ext. intros k.
  replace (4 * S k)%nat with (4 + 4 * k)%nat by lia. reflexivity.
Qed.

Lemma int_from_bytes_big_4 (a b c d : byte) :
  int_from_bytes_big [a; b; c; d] =
  ((int_of_byte a * 256 + int_of_byte b) * 256 + int_of_byte c) * 256
  + int_of_byte d.
Proof. unfold int_from_bytes_big. cbn [fold_left]. lia. Qed.

Lemma int_from_bytes_big_4_uint32 (a b c d : byte) :
  uint32 (int_from_bytes_big [a; b; c; d]).
Proof.
  rewrite int_from_bytes_big_4.
  pose proof (int_of_byte_range a). pose proof (int_of_byte_range b).
  pose proof (int_of_byte_range c). pose proof (int_of_byte_range d).
  unfold uint32. lia.
Qed.

Lemma int_to_bytes4_big_in_range (v : Z) :
  uint32 v ->
  int_to_bytes4_big v =
  bytes_of_ints [v / 2 ^ 24; (v / 2 ^ 16) mod 256; (v / 2 ^ 8) mod 256; v mod 256].
Proof.
  intros Hv. unfold int_to_bytes4_big, uint32 in *.
  destruct (Z.ltb_spec v 0); [lia|]. destruct (Z.leb_spec (2 ^ 32) v); [lia|].
  reflexivity.
Qed.

Lemma int_to_from_bytes (a b c d : byte) :
  int_to_bytes4_big (int_from_bytes_big [a; b; c; d]) = Ok [a; b; c; d].
Proof.
  rewrite int_to_bytes4_big_in_range by apply int_from_bytes_big_4_uint32.
  rewrite int_from_bytes_big_4.
  pose proof (int_of_byte_range a). pose proof (int_of_byte_range b).
  pose proof (int_of_byte_range c). pose proof (int_of_byte_range d).
  set (v := ((int_of_byte a * 256 + int_of_byte b) * 256 + int_of_byte c) * 256
            + int_of_byte d).
  assert (Ha : v / 2 ^ 24 = int_of_byte a)
    by (unfold v; change (2 ^ 24) with 16777216;
        symmetry; apply (Z.div_unique _ _ _
          ((int_of_byte b * 256 + int_of_byte c) * 256 + int_of_byte d)); lia).
  assert (Hb : (v / 2 ^ 16) mod 256 = int_of_byte b).
  { assert (Hq : v / 2 ^ 16 = int_of_byte a * 256 + int_of_byte b)
      by (unfold v; change (2 ^ 16) with 65536;
          symmetry; apply (Z.div_unique _ _ _
            (int_of_byte c * 256 + int_of_byte d)); lia).
    rewrite Hq. symmetry. apply (Z.mod_unique _ _ (int_of_byte a)); lia. }
  assert (Hc : (v / 2 ^ 8) mod 256 = int_of_byte c).
  { assert (Hq : v / 2 ^ 8 = (int_of_byte a * 256 + int_of_byte b) * 256
                             + int_of_byte c)
      by (unfold v; change (2 ^ 8) with 256;
          symmetry; apply (Z.div_unique _ _ _ (int_of_byte d)); lia).
    rewrite Hq. symmetry.
    apply (Z.mod_unique _ _ (int_of_byte a * 256 + int_of_byte b)); lia. }
  assert (Hd : v mod 256 = int_of_byte d).
  { symmetry. apply (Z.mod_unique _ _
      ((int_of_byte a * 256 + int_of_byte b) * 256 + int_of_byte c));
      unfold v; lia. }
  rewrite Ha, Hb, Hc, Hd. cbn [bytes_of_ints].
  rewrite !byte_of_int_of_byte. reflexivity.
Qed.

Lemma int_from_to_bytes (v : Z) :
  uint32 v ->
  exists a b c d,
    int_to_bytes4_big v = Ok [a; b; c; d] /\ int_from_bytes_big [a; b; c; d] = v.
Proof.
  intros Hv. rewrite int_to_bytes4_big_in_range by assumption.
  unfold uint32 in Hv.
  assert (H24 : 0 <= v / 2 ^ 24 < 256)
    by (change (2 ^ 24) with 16777216; split;
        [apply Z.div_pos; lia | apply Z.div_lt_upper_bound; lia]).
  destruct (byte_of_int_in_range _ H24) as [a [Ha Hva]].
  destruct (byte_of_int_in_range ((v / 2 ^ 16) mod 256)
              (Z.mod_pos_bound _ 256 ltac:(lia))) as [b [Hb Hvb]].
  destruct (byte_of_int_in_range ((v / 2 ^ 8) mod 256)
              (Z.mod_pos_bound _ 256 ltac:(lia))) as [c [Hc Hvc]].
  destruct (byte_of_int_in_range (v mod 256)
              (Z.mod_pos_bound _ 256 ltac:(lia))) as [d [Hd Hvd]].
  exists a, b, c, d. cbn [bytes_of_ints]. rewrite Ha, Hb, Hc, Hd.
  split; [reflexivity|].
  rewrite int_from_bytes_big_4, Hva, Hvb, Hvc, Hvd.
  change (2 ^ 24) with 16777216. change (2 ^ 16) with 65536.
  change (2 ^ 8) with 256.
  pose proof (Z.div_mod v 256 ltac:(lia)).
  pose proof (Z.div_mod (v / 256) 256 ltac:(lia)).
  pose proof (Z.div_mod (v / 65536) 256 ltac:(lia)).
  assert (v / 65536 = v / 256 / 256) by (rewrite Z.div_div by lia; reflexivity).
  assert (v / 16777216 = v / 65536 / 256) by (rewrite Z.div_div by lia; reflexivity).
  lia.
Qed.

Lemma blocks_to_bytes_acc (blocks : list Z) :
  forall acc : list byte,
    for_each blocks
      (fun output block => chunk <- int_to_bytes4_big block ;; Ok (output ++ chunk))
      acc
    = rest <- blocks_to_bytes blocks ;; Ok (acc ++ rest).
Proof.
  unfold blocks_to_bytes.
  induction blocks as [|x xs IH]; intros acc; cbn [for_each bind].
  - rewrite app_nil_r. reflexivity.
  - destruct (int_to_bytes4_big x) as [chunk|e]; cbn [bind app]; [|reflexivity].
    rewrite (IH (acc ++ chunk)), (IH chunk).
    destruct (for_each xs _ []) as [rest|e]; cbn [bind]; [|reflexivity].
    rewrite app_assoc. reflexivity.
Qed.

Lemma blocks_to_bytes_cons (x : Z) (xs : list Z) :
  blocks_to_bytes (x :: xs) =
  chunk <- int_to_bytes4_big x ;;
  rest <- blocks_to_bytes xs ;;
  Ok (chunk ++ rest).
Proof.
  unfold blocks_to_bytes at 1. cbn [for_each].
  destruct (int_to_bytes4_big x) as [chunk|e]; cbn [bind app]; [|reflexivity].
  apply blocks_to_bytes_acc.
Qed.

(** A block-aligned buffer survives the conversion to blocks and back. *)
Lemma bytes_blocks_roundtrip (n : nat) :
  forall data : list byte,
    length data = (4 * n)%nat ->
    blocks_to_bytes (bytes_to_blocks data) = Ok data /\
    Forall uint32 (bytes_to_blocks data).
Proof.
  induction n as [|n IH]; intros data Hlen.
  - destruct data; [|discriminate]. split; [reflexivity|constructor].
  - destruct data as [|a [|b [|c [|d rest]]]]; cbn [length] in Hlen; try lia.
    destruct (IH rest ltac:(lia)) as [Hrt Hall].
    rewrite bytes_to_blocks_cons4. split.
    + rewrite blocks_to_bytes_cons, int_to_from_bytes, Hrt. reflexivity.
    + constructor; [apply int_from_bytes_big_4_uint32|exact Hall].
Qed.

(** 32-bit blocks survive the conversion to bytes and back. *)
Lemma blocks_bytes_roundtrip (blocks : list Z) :
  Forall uint32 blocks ->
  exists data,
    blocks_to_bytes blocks = Ok data /\ bytes_to_blocks data = blocks.
Proof.
  induction 1 as [|x xs Hx Hxs [data [Hdata Hback]]].
  - exists []. split; reflexivity.
  - destruct (int_from_to_bytes x Hx) as [a [b [c [d [Hto Hfrom]]]]].
    exists (a :: b :: c :: d :: data). split.
    + rewrite blocks_to_bytes_cons, Hto, Hdata. reflexivity.
    + rewrite bytes_to_blocks_cons4, Hfrom, Hback. reflexivity.
Qed.

(** ** Messages *)

Lemma enumerate_length {A} (l : list A) : length (range (len l)) = length l.
Proof. rewrite range_length. unfold len. lia. Qed.

Section Messages.

Variable g : Globals.
Hypothesis ready : session_ready g.
Variable rounds : Z.

(** The two message loops, run side by side: decryption replays the LFSR
    states of encryption block after block. *)
Lemma encrypt_decrypt_loop (blocks : list Z) :
  forall (idx idx' : list Z) (st : Z) (acc acc' : list Z),
    Forall uint32 blocks ->
    length idx = length blocks -> length idx' = length blocks ->
    exists encs st',
      for_each (combine idx blocks)
        (fun '(lfsr_state, encrypted_blocks) '(idx, blk) =>
           '(enc_blk, lfsr_state) <- encrypt_block g blk lfsr_state rounds ;;
           Ok (lfsr_state, encrypted_blocks ++ [enc_blk]))
        (st, acc) = Ok (st', acc ++ encs) /\
      Forall uint32 encs /\ length encs = length blocks /\
      for_each (combine idx' encs)
        (fun '(lfsr_state, decrypted_blocks) '(idx, blk) =>
           '(dec_blk, lfsr_state) <- decrypt_block g blk lfsr_state rounds ;;
           Ok (lfsr_state, decrypted_blocks ++ [dec_blk]))
        (st, acc') = Ok (st', acc' ++ blocks).
Proof.
  induction blocks as [|b bs IH]; intros idx idx' st acc acc' Hall Hl Hl'.
  - exists [], st. destruct idx; [|discriminate]. destruct idx'; [|discriminate].
    cbn [combine for_each]. rewrite !app_nil_r. auto.
  - destruct idx as [|i idx]; [discriminate|].
    destruct idx' as [|i' idx']; [discriminate|].
    inversion Hall as [|? ? Hb Hbs]; subst.
    destruct (block_roundtrip g ready b st rounds Hb) as [c [Henc [Hc Hdec]]].
    destruct (IH idx idx' (fst (subkey_schedule st rounds))
                (acc ++ [c]) (acc' ++ [b]) Hbs
                ltac:(cbn [length] in Hl; lia) ltac:(cbn [length] in Hl'; lia))
      as [encs [st' [Hencs [Huint [Hlen Hdecs]]]]].
    exists (c :: encs), st'.
    cbn [combine for_each]. rewrite Henc, Hdec. cbn [bind].
    rewrite Hencs, Hdecs, <- !app_assoc.
    split; [reflexivity|]. split; [constructor; assumption|].
    split; [cbn [length]; lia|reflexivity].
Qed.

Lemma encrypt_decrypt_blocks (blocks : list Z) (key_32 : Z) :
  Forall uint32 blocks ->
  exists encs,
    encrypt_blocks g blocks key_32 rounds = Ok encs /\
    Forall uint32 encs /\
    decrypt_blocks g encs key_32 rounds = Ok blocks.
Proof.
  intros Hall.
  destruct (encrypt_decrypt_loop blocks (range (len blocks)) (range (len blocks))
              key_32 [] [] Hall
              (enumerate_length blocks) (enumerate_length blocks))
    as [encs [st' [Henc [Huint [Hlen Hdec]]]]].
  exists encs. unfold encrypt_blocks, decrypt_blocks, enumerate.
  replace (len encs) with (len blocks) by (unfold len; lia).
  rewrite Henc, Hdec. cbn [bind app]. auto.
Qed.

(** Decrypting two block lists of the same length: both loops return, and
    wherever the two lists hold the same block the results do too. *)
Lemma decrypt_loop_local (bs1 : list Z) :
  forall (bs2 idx1 idx2 : list Z) (st : Z) (acc1 acc2 : list Z),
    length bs1 = length bs2 ->
    length idx1 = length bs1 -> length idx2 = length bs2 ->
    exists d1 d2 st',
      for_each (combine idx1 bs1)
        (fun '(lfsr_state, decrypted_blocks) '(idx, blk) =>
           '(dec_blk, lfsr_state) <- decrypt_block g blk lfsr_state rounds ;;
           Ok (lfsr_state, decrypted_blocks ++ [dec_blk]))
        (st, acc1) = Ok (st', acc1 ++ d1) /\
      for_each (combine idx2 bs2)
        (fun '(lfsr_state, decrypted_blocks) '(idx, blk) =>
           '(dec_blk, lfsr_state) <- decrypt_block g blk lfsr_state rounds ;;
           Ok (lfsr_state, decrypted_blocks ++ [dec_blk]))
        (st, acc2) = Ok (st', acc2 ++ d2) /\
      length d1 = length bs1 /\ length d2 = length bs2 /\
      (forall j, nth_error bs1 j = nth_error bs2 j ->
                 nth_error d1 j = nth_error d2 j).
Proof.
  induction bs1 as [|b1 bs1 IH]; intros bs2 idx1 idx2 st acc1 acc2 Hl H1 H2.
  - destruct bs2; [|discriminate].
    destruct idx1; [|discriminate]. destruct idx2; [|discriminate].
    exists [], [], st. cbn [combine for_each]. rewrite !app_nil_r. auto.
  - destruct bs2 as [|b2 bs2]; [discriminate|].
    destruct idx1 as [|i1 idx1]; [discriminate|].
    destruct idx2 as [|i2 idx2]; [discriminate|].
    destruct (decrypt_block_total g ready b1 st rounds) as [p1 [Hp1 _]].
    destruct (decrypt_block_total g ready b2 st rounds) as [p2 [Hp2 _]].
    destruct (IH bs2 idx1 idx2 (fst (subkey_schedule st rounds))
                (acc1 ++ [p1]) (acc2 ++ [p2])
                ltac:(cbn [length] in Hl; lia)
                ltac:(cbn [length] in H1; lia) ltac:(cbn [length] in H2; lia))
      as [d1 [d2 [st' [Hd1 [Hd2 [Hn1 [Hn2 Hsame]]]]]]].
    exists (p1 :: d1), (p2 :: d2), st'.
    cbn [combine for_each]. rewrite Hp1, Hp2. cbn [bind].
    rewrite Hd1, Hd2, <- !app_assoc.
    split; [reflexivity|]. split; [reflexivity|].
    split; [cbn [length]; lia|]. split; [cbn [length]; lia|].
    intros [|j] Hj; cbn [nth_error] in *.
    + injection Hj as ->. rewrite Hp1 in Hp2. apply Ok_inj in Hp2.
      injection Hp2 as ->. reflexivity.
    + apply Hsame, Hj.
Qed.

End Messages.

Lemma session_of_ready (shuffle : Z -> list Z -> list Z) (key : Z) (g : Globals) :
  (forall k l, Permutation l (shuffle k l)) ->
  session_of shuffle key g -> session_ready g.
Proof.
  intros Hperm [tables [Hgen ->]].
  destruct (generate_s_box_tables shuffle Hperm key)
    as [sbox [invSbox [Hgen' [_ [Hlen _]]]]].
  rewrite Hgen' in Hgen. apply Ok_inj in Hgen. subst tables.
  exists sbox. split; [reflexivity|exact Hlen].
Qed.

Lemma demo_globals_ready : session_ready demo_globals.
Proof. eexists. split; [vm_compute; reflexivity|reflexivity]. Qed.

Lemma demo_globals_session : session_of FisherYates.shuffle 0xDEADBEEF demo_globals.
Proof. eexists. split; [vm_compute; reflexivity|reflexivity]. Qed.

Lemma encrypt_block_decrypt_block_witness :
  exists c st,
    encrypt_block demo_globals 0x01234567 0xDEADBEEF 4 = Ok (c, st) /\
    decrypt_block demo_globals c 0xDEADBEEF 4 = Ok (0x01234567, st) /\
    (forall b', exists p, decrypt_block demo_globals b' 0xDEADBEEF 4 = Ok (p, st)).
Proof.
  apply (encrypt_block_decrypt_block demo_globals 0x01234567 0xDEADBEEF 4).
  - exact demo_globals_ready.
  - unfold uint32. lia.
  - unfold uint32. lia.
  - lia.
Defined.

(** The round trip for any round count, on a session whose S-box table is
    in place. *)
Lemma encrypt_decrypt_message_rounds (g : Globals) (m : list byte)
  (k rounds : Z) :
  session_ready g ->
  exists c,
    encrypt_message g m k rounds = Ok c /\
    decrypt_message g c k rounds = Ok m.
Proof.
  intros Hg.
  destruct (pad_then_unpad m) as [padded [Hpad [Hmod Hunpad]]].
  assert (Hlen : length padded = (4 * Z.to_nat (len padded / 4))%nat).
  { pose proof (Z.div_mod (len padded) 4 ltac:(lia)) as Hdm.
    pose proof (len_nonneg padded). unfold len in *.
    pose proof (Z.div_pos (Z.of_nat (length padded)) 4 ltac:(lia) ltac:(lia)). lia. }
  destruct (bytes_blocks_roundtrip _ padded Hlen) as [Hback Hall].
  destruct (encrypt_decrypt_blocks g Hg rounds (bytes_to_blocks padded) k Hall)
    as [encs [Henc [Huint Hdec]]].
  destruct (blocks_bytes_roundtrip encs Huint) as [c [Hc Hcb]].
  exists c. unfold encrypt_message, decrypt_message.
  rewrite Hpad. cbn [bind]. rewrite Henc. cbn [bind].
  split; [exact Hc|].
  rewrite Hcb, Hdec. cbn [bind]. rewrite Hback. cbn [bind]. exact Hunpad.
Qed.

(** C1: for every byte sequence [m] (the empty one included), every 32-bit
    key [k] and 4 rounds, once the S-box globals hold the tables generated
    from [k], [encrypt_message] returns a ciphertext and [decrypt_message]
    maps that ciphertext back to exactly [m]. *)
Theorem encrypt_message_decrypt_message
  (shuffle : Z -> list Z -> list Z) (g : Globals) (m : list byte) (k : Z)
  (shuffle_permutes : forall key l, Permutation l (shuffle key l))
  (Hk : uint32 k) (Hg : session_of shuffle k g) :
  exists c,
    encrypt_message g m k 4 = Ok c /\
    decrypt_message g c k 4 = Ok m.
Proof.
  apply encrypt_decrypt_message_rounds.
  exact (session_of_ready shuffle k g shuffle_permutes Hg).
Qed.

Lemma encrypt_message_decrypt_message_witness :
  exists c,
    encrypt_message demo_globals ["h"; "i"; "!"]%byte 0xDEADBEEF 4 = Ok c /\
    decrypt_message demo_globals c 0xDEADBEEF 4 = Ok ["h"; "i"; "!"]%byte.
Proof.
  apply (encrypt_message_decrypt_message FisherYates.shuffle demo_globals
           ["h"; "i"; "!"]%byte 0xDEADBEEF).
  - exact fisher_yates_perm.
  - unfold uint32. lia.
  - exact demo_globals_session.
Defined.

(** C8, as the code has it: [bytes_to_blocks] has no alignment check and
    raises nothing.  On a buffer whose length is not a multiple of 4 it
    returns one block per full 4-byte group, then one more block: the
    big-endian value of the 1 to 3 bytes that remain. *)
Theorem bytes_to_blocks_unaligned (d : list byte)
  (Hd : (length d mod 4 <> 0)%nat) :
  exists blocks,
    bytes_to_blocks d =
      blocks ++ [int_from_bytes_big (skipn (4 * (length d / 4)) d)] /\
    length blocks = (length d / 4)%nat /\
    (forall k, (k < length d / 4)%nat ->
       nth_error blocks k =
       Some (int_from_bytes_big (firstn 4 (skipn (4 * k) d)))) /\
    (1 <= length (skipn (4 * (length d / 4)) d) <= 3)%nat.
Proof.
  pose proof (Nat.div_mod_eq (length d) 4) as Hdm.
  pose proof (Nat.mod_upper_bound (length d) 4 ltac:(lia)) as Hub.
  assert (HN : Z.to_nat ((len d + 3) / 4) = S (length d / 4)).
  { unfold len.
    replace (Z.of_nat (length d) + 3)
      with (Z.of_nat (length d mod 4 + 3) + Z.of_nat (length d / 4) * 4) by lia.
    rewrite Z.div_add by lia.
    assert (Z.of_nat (length d mod 4 + 3) / 4 = 1); [|lia].
    symmetry. apply (Z.div_unique _ _ _ (Z.of_nat (length d mod 4) - 1)); lia. }
  exists (map (fun k => int_from_bytes_big (firstn 4 (skipn (4 * k) d)))
              (seq 0 (length d / 4))).
  split; [|split; [|split]].
  - rewrite bytes_to_blocks_map, HN, seq_S, map_app. cbn [map Nat.add].
    do 3 f_equal. apply firstn_all2. rewrite length_skipn. lia.
  - rewrite length_map, length_seq. reflexivity.
  - intros k Hk. rewrite nth_error_map, nth_error_seq.
    destruct (Nat.ltb_spec k (length d / 4)); [reflexivity|lia].
  - rewrite length_skipn. lia.
Qed.

Lemma bytes_to_blocks_unaligned_witness :
  exists blocks,
    bytes_to_blocks ["001"; "002"; "003"; "004"; "005"]%byte =
      blocks ++ [int_from_bytes_big ["005"%byte]] /\
    length blocks = 1%nat /\
    (forall k, (k < 1)%nat ->
       nth_error blocks k =
       Some (int_from_bytes_big
               (firstn 4 (skipn (4 * k)
                            ["001"; "002"; "003"; "004"; "005"]%byte)))) /\
    (1 <= 1 <= 3)%nat.
Proof.
  exact (bytes_to_blocks_unaligned ["001"; "002"; "003"; "004"; "005"]%byte
           ltac:(vm_compute; discriminate)).
Defined.

Lemma bytes_to_blocks_unaligned_counterexample :
  (length ["001"%byte] mod 4 <> 0)%nat /\
  ret (bytes_to_blocks ["001"%byte]) = Ok [1] /\
  ~ (exists e, ret (bytes_to_blocks ["001"%byte]) = Raise e).
Proof.
  split; [vm_compute; discriminate|]. split; [reflexivity|].
  intros [e He]. discriminate He.
Qed.

(** Two buffers of the same length that hold the same bytes in group [j]
    give the same block [j]. *)
Lemma bytes_to_blocks_same_block (c1 c2 : list byte) (j : nat) :
  length c1 = length c2 ->
  (forall p, (p / 4 = j)%nat -> nth_error c1 p = nth_error c2 p) ->
  nth_error (bytes_to_blocks c1) j = nth_error (bytes_to_blocks c2) j.
Proof.
  intros Hlen Hsame.
  assert (Hn : length (bytes_to_blocks c1) = length (bytes_to_blocks c2))
    by (rewrite !bytes_to_blocks_length; unfold len; rewrite Hlen; reflexivity).
  destruct (Nat.lt_ge_cases j (length (bytes_to_blocks c1))) as [Hj|Hj].
  - rewrite !bytes_to_blocks_nth by lia. do 2 f_equal.
    apply nth_error_ext. intros q.
    rewrite !nth_error_firstn, !nth_error_skipn.
    destruct (Nat.ltb_spec q 4); [|reflexivity].
    apply Hsame. symmetry. apply (Nat.div_unique _ _ _ q); lia.
  - rewrite (proj2 (nth_error_None _ _)) by lia.
    rewrite (proj2 (nth_error_None _ _)) by lia. reflexivity.
Qed.

Lemma decrypt_message_via_blocks (g : Globals) (c : list byte) (key_32 rounds : Z) :
  decrypt_message g c key_32 rounds =
  decrypted_blocks <- decrypted_blocks_of g c key_32 rounds ;;
  padded_plaintext <- blocks_to_bytes decrypted_blocks ;;
  unpad_pkcs7 padded_plaintext 4.
Proof. reflexivity. Qed.

(** C9: take two ciphertexts of the same length that differ only within
    block [i] (bytes [4i .. 4i+3]).  Decrypting each with the same key and
    round count, on a session whose S-box table is in place, returns; and
    the two lists of decrypted blocks agree at every index other than [i].
    The subkeys of a block come from the LFSR state chain, which the
    ciphertext does not influence. *)
Theorem decrypt_block_independence (g : Globals) (key_32 rounds : Z) (i : nat)
  (c1 c2 : list byte)
  (Hg : session_ready g)
  (Hlen : length c1 = length c2)
  (Hdiff : forall p, (p / 4 <> i)%nat -> nth_error c1 p = nth_error c2 p) :
  exists d1 d2,
    decrypted_blocks_of g c1 key_32 rounds = Ok d1 /\
    decrypted_blocks_of g c2 key_32 rounds = Ok d2 /\
    length d1 = length d2 /\
    (forall j, j <> i -> nth_error d1 j = nth_error d2 j).
Proof.
  assert (Hn : length (bytes_to_blocks c1) = length (bytes_to_blocks c2))
    by (rewrite !bytes_to_blocks_length; unfold len; rewrite Hlen; reflexivity).
  destruct (decrypt_loop_local g Hg rounds
              (bytes_to_blocks c1) (bytes_to_blocks c2)
              (range (len (bytes_to_blocks c1))) (range (len (bytes_to_blocks c2)))
              key_32 [] [] Hn (enumerate_length _) (enumerate_length _))
    as [d1 [d2 [st' [Hd1 [Hd2 [Hl1 [Hl2 Hsame]]]]]]].
  exists d1, d2. unfold decrypted_blocks_of, decrypt_blocks, enumerate.
  rewrite Hd1, Hd2. cbn [bind app].
  split; [reflexivity|]. split; [reflexivity|]. split; [lia|].
  intros j Hj. apply Hsame. apply bytes_to_blocks_same_block; [exact Hlen|].
  intros p Hp. apply Hdiff. lia.
Qed.

Lemma decrypt_block_independence_witness :
  exists d1 d2,
    decrypted_blocks_of demo_globals
      ["001"; "002"; "003"; "004"; "005"; "006"; "007"; "008"]%byte
      0xDEADBEEF 4 = Ok d1 /\
    decrypted_blocks_of demo_globals
      ["001"; "002"; "003"; "004"; "005"; "006"; "007"; "009"]%byte
      0xDEADBEEF 4 = Ok d2 /\
    length d1 = length d2 /\
    (forall j, j <> 1%nat -> nth_error d1 j = nth_error d2 j).
Proof.
  apply (decrypt_block_independence demo_globals 0xDEADBEEF 4 1).
  - exact demo_globals_ready.
  - reflexivity.
  - intros p Hp.
    destruct p as [|[|[|[|[|[|[|[|p]]]]]]]]; try reflexivity;
      exfalso; apply Hp; reflexivity.
Defined.

(** * Further properties of the code *)

(** ** Rotation *)

Lemma rotate_left_16_testbit (x n i : Z) :
  uint16 x -> 0 <= i ->
  Z.testbit (rotate_left_16 x n) i =
  if i <? 16 then Z.testbit x ((i - n) mod 16) else false.
Proof.
  intros Hx Hi. unfold rotate_left_16. cbv zeta.
  pose proof (Z.mod_pos_bound n 16 ltac:(lia)) as Hm.
  rewrite <- (Zminus_mod_idemp_r i n 16).
  set (m := n mod 16) in *.
  rewrite Z.lor_spec, testbit_land_FFFF, Z.shiftl_spec, Z.shiftr_spec by lia.
  destruct (Z.ltb_spec i 16) as [Hlt|Hge].
  - rewrite andb_true_r.
    destruct (Z.lt_ge_cases i m) as [Him|Him].
    + rewrite (Z.testbit_neg_r x (i - m)) by lia. cbn [orb].
      f_equal. apply (Z.mod_unique _ _ (-1)); lia.
    + rewrite (testbit_high x 16 (i + (16 - m))) by (assumption || lia).
      rewrite orb_false_r. f_equal. symmetry. apply Z.mod_small. lia.
  - rewrite andb_false_r. cbn [orb].
    apply (testbit_high x 16); [assumption|lia].
Qed.

Lemma rotate_left_16_uint16 (x n : Z) : uint16 x -> uint16 (rotate_left_16 x n).
Proof.
  intros Hx.
  pose proof (Z.mod_pos_bound n 16 ltac:(lia)) as Hm.
  assert (Hnn : 0 <= rotate_left_16 x n).
  { unfold rotate_left_16. cbv zeta. apply Z.lor_nonneg. split.
    - apply Z.land_nonneg. right. lia.
    - apply Z.shiftr_nonneg. unfold uint16 in Hx. lia. }
  split; [exact Hnn|]. apply bits_range; [lia|exact Hnn|].
  intros i Hi. rewrite rotate_left_16_testbit by (assumption || lia).
  destruct (Z.ltb_spec i 16); [lia|reflexivity].
Qed.

(** X1: on a 16-bit value, [rotate_left_16 x n] is a 16-bit value whose bit
    [i] is bit [(i - n) mod 16] of [x], for every integer [n] (negative or
    larger than 16 included): the bits move up by [n mod 16] places and
    wrap around. *)
Theorem rotate_left_16_rotates (x n : Z) (Hx : uint16 x) :
  uint16 (rotate_left_16 x n) /\
  (forall i, 0 <= i < 16 ->
     Z.testbit (rotate_left_16 x n) i = Z.testbit x ((i - n) mod 16)).
Proof.
  split; [apply rotate_left_16_uint16; exact Hx|].
  intros i Hi. rewrite rotate_left_16_testbit by (assumption || lia).
  destruct (Z.ltb_spec i 16); [reflexivity|lia].
Qed.

Lemma rotate_left_16_rotates_witness :
  uint16 0x8001 /\ rotate_left_16 0x8001 17 = 0x0003 /\
  uint16 (rotate_left_16 0x8001 17).
Proof.
  split; [unfold uint16; lia|]. split; [reflexivity|].
  exact (proj1 (rotate_left_16_rotates 0x8001 17 ltac:(unfold uint16; lia))).
Defined.

(** X2: rotating a 16-bit value left by [n] and then by [- n] (or by
    [16 - n]) gives the value back. *)
Theorem rotate_left_16_inverse (x n : Z) (Hx : uint16 x) :
  rotate_left_16 (rotate_left_16 x n) (- n) = x /\
  rotate_left_16 (rotate_left_16 x n) (16 - n) = x.
Proof.
  pose proof (rotate_left_16_uint16 x n Hx) as Hy.
  assert (Hback : forall k, (k + n) mod 16 = 0 ->
            rotate_left_16 (rotate_left_16 x n) k = x).
  { intros k Hk. apply Z.bits_inj'. intros i Hi.
    rewrite rotate_left_16_testbit by (assumption || lia).
    destruct (Z.ltb_spec i 16) as [Hlt|Hge].
    - pose proof (Z.mod_pos_bound (i - k) 16 ltac:(lia)) as Hb.
      rewrite rotate_left_16_testbit by (assumption || lia).
      destruct (Z.ltb_spec ((i - k) mod 16) 16); [|lia].
      f_equal. rewrite Zminus_mod_idemp_l.
      replace (i - k - n) with (i - (k + n)) by lia.
      rewrite <- Zminus_mod_idemp_r, Hk, Z.sub_0_r. apply Z.mod_small. lia.
    - symmetry. apply (testbit_high x 16); [assumption|lia]. }
  split; apply Hback.
  - replace (- n + n) with 0 by lia. reflexivity.
  - replace (16 - n + n) with (0 + 1 * 16) by lia. apply Z.mod_add. lia.
Qed.

Lemma rotate_left_16_inverse_witness :
  rotate_left_16 (rotate_left_16 0xBEEF 5) (- 5) = 0xBEEF /\
  rotate_left_16 (rotate_left_16 0xBEEF 5) (16 - 5) = 0xBEEF.
Proof.
  exact (rotate_left_16_inverse 0xBEEF 5 ltac:(unfold uint16; lia)).
Defined.

(** ** The LFSR never merges two states *)

Lemma lfsr_step_fst_testbit s i :
  0 <= i ->
  Z.testbit (fst (lfsr_step s)) i =
  if i <? 31 then Z.testbit s (i + 1)
  else if i =? 31 then feedback s else false.
Proof. intros Hi. rewrite lfsr_step_eq. cbn [fst]. apply lfsr_next_testbit, Hi. Qed.

Lemma lfsr_step_fst_injective (s t : Z) :
  uint32 s -> uint32 t -> fst (lfsr_step s) = fst (lfsr_step t) -> s = t.
Proof.
  intros Hs Ht Heq.
  assert (Hbit : forall i, 0 <= i ->
            Z.testbit (fst (lfsr_step s)) i = Z.testbit (fst (lfsr_step t)) i)
    by (intros; rewrite Heq; reflexivity).
  assert (Hup : forall i, 1 <= i <= 31 -> Z.testbit s i = Z.testbit t i).
  { intros i Hi. specialize (Hbit (i - 1) ltac:(lia)).
    rewrite !lfsr_step_fst_testbit in Hbit by lia.
    destruct (Z.ltb_spec (i - 1) 31); [|lia].
    replace (i - 1 + 1) with i in Hbit by lia. exact Hbit. }
  assert (Hfb : feedback s = feedback t).
  { specialize (Hbit 31 ltac:(lia)).
    rewrite !lfsr_step_fst_testbit in Hbit by lia. exact Hbit. }
  apply Z.bits_inj'. intros i Hi.
  destruct (Z.eq_dec i 0) as [->|Hne].
  - unfold feedback in Hfb.
    rewrite (Hup 1), (Hup 21), (Hup 31) in Hfb by lia.
    destruct (Z.testbit s 0), (Z.testbit t 0), (Z.testbit t 1),
      (Z.testbit t 21), (Z.testbit t 31); simpl in Hfb; congruence.
  - destruct (Z.le_gt_cases i 31).
    + apply Hup. lia.
    + rewrite (testbit_high s 32), (testbit_high t 32) by (assumption || lia).
      reflexivity.
Qed.

(** X3: [lfsr_step] is injective on 32-bit states, so no two states lead to
    the same next state; since the all-zero state steps to itself, a
    non-zero 32-bit state never steps to zero. *)
Theorem lfsr_step_injective (s t : Z) (Hs : uint32 s) (Ht : uint32 t) :
  (lfsr_step s = lfsr_step t -> s = t) /\
  (s <> 0 -> fst (lfsr_step s) <> 0).
Proof.
  split.
  - intros H. apply lfsr_step_fst_injective; [assumption|assumption|].
    rewrite H. reflexivity.
  - intros Hne H0. apply Hne.
    apply (lfsr_step_fst_injective s 0); [assumption|unfold uint32; lia|].
    rewrite H0. reflexivity.
Qed.

Lemma lfsr_step_injective_witness :
  (lfsr_step 5 = lfsr_step 6 -> 5 = 6) /\ (5 <> 0 -> fst (lfsr_step 5) <> 0).
Proof.
  exact (lfsr_step_injective 5 6 ltac:(unfold uint32; lia) ltac:(unfold uint32; lia)).
Defined.

(** ** Both S-box tables are permutations *)

Section SBoxTables.

Variable shuffle : Z -> list Z -> list Z.
Hypothesis shuffle_permutes : forall key l, Permutation l (shuffle key l).

(** Everything later proofs need about the generated tables. *)
Lemma generate_s_box_both (s : Z) :
  exists sbox invSbox,
    generate_s_box shuffle s = Ok (sbox, invSbox) /\
    length sbox = 16%nat /\ length invSbox = 16%nat /\
    nibble_valued sbox /\ nibble_valued invSbox /\
    (forall v, 0 <= v < 16 ->
       exists i, 0 <= i < 16 /\ getitem sbox v = Ok i /\ getitem invSbox i = Ok v) /\
    (forall v, 0 <= v < 16 ->
       exists i, 0 <= i < 16 /\ getitem invSbox v = Ok i /\ getitem sbox i = Ok v).
Proof.
  destruct (generate_s_box_tables shuffle shuffle_permutes s)
    as [sbox [invSbox [Hgen [Hperm [Hlen [Hlen' Hinv]]]]]].
  exists sbox, invSbox.
  assert (Hback : forall v, 0 <= v < 16 ->
            exists k, (k < 16)%nat /\ nth_error sbox k = Some v /\
                      nth_error invSbox (Z.to_nat v) = Some (Z.of_nat k)).
  { intros v Hv.
    assert (Hin : In v sbox)
      by (eapply Permutation_in; [exact Hperm|apply In_range; exact Hv]).
    destruct (In_nth_error _ _ Hin) as [k Hk].
    exists k. split; [|split; [exact Hk|apply (Hinv k v Hk)]].
    rewrite <- Hlen. apply nth_error_Some. congruence. }
  split; [exact Hgen|]. split; [exact Hlen|]. split; [exact Hlen'|].
  split; [|split; [|split]].
  - apply Forall_forall. intros v Hv.
    destruct (In_nth_error _ _ Hv) as [k Hk]. apply (Hinv k v Hk).
  - apply Forall_forall. intros i Hi.
    destruct (In_nth_error _ _ Hi) as [j Hj].
    assert (Hj16 : (j < 16)%nat)
      by (rewrite <- Hlen'; apply nth_error_Some; congruence).
    destruct (Hback (Z.of_nat j) ltac:(lia)) as [k [Hk [_ Hk']]].
    rewrite Nat2Z.id in Hk'. rewrite Hk' in Hj. injection Hj as <-. lia.
  - intros v Hv.
    destruct (nth_error sbox (Z.to_nat v)) as [i|] eqn:Hi.
    + destruct (Hinv _ _ Hi) as [Hr Hn]. exists i.
      split; [exact Hr|]. split; [apply getitem_nth; [lia|exact Hi]|].
      apply getitem_nth; [lia|]. rewrite Hn. f_equal. lia.
    + apply nth_error_None in Hi. lia.
  - intros v Hv. destruct (Hback v Hv) as [k [Hk [Hs Hi]]].
    exists (Z.of_nat k). split; [lia|].
    split; [apply getitem_nth; [lia|exact Hi]|].
    apply getitem_nth; [lia|]. rewrite Nat2Z.id. exact Hs.
Qed.

End SBoxTables.

(** X4: with any shuffle that rearranges its list, the inverse table that
    [generate_s_box] returns is itself a permutation of 0..15, and the two
    tables undo each other in the other order as well:
    [sbox[invSbox[v]] == v] for every [v] of 0..15. *)
Theorem generate_s_box_inverse_table
  (shuffle : Z -> list Z -> list Z)
  (shuffle_permutes : forall key l, Permutation l (shuffle key l))
  (s : Z) :
  exists sbox invSbox,
    generate_s_box shuffle s = Ok (sbox, invSbox) /\
    Permutation (range 16) invSbox /\
    (forall v, 0 <= v < 16 ->
       exists i, getitem invSbox v = Ok i /\ getitem sbox i = Ok v).
Proof.
  destruct (generate_s_box_both shuffle shuffle_permutes s)
    as [sbox [invSbox [Hgen [Hlen [Hlen' [Hnv [Hnv' [Hfw Hbw]]]]]]]].
  exists sbox, invSbox. split; [exact Hgen|]. split.
  - apply Permutation_sym. apply NoDup_Permutation_bis.
    + apply NoDup_nth_error. intros a b Ha Hab.
      rewrite Hlen' in Ha.
      destruct (nth_error invSbox a) as [i|] eqn:Hi;
        [|apply nth_error_None in Hi; lia].
      symmetry in Hab.
      assert (Hb : (b < 16)%nat)
        by (rewrite <- Hlen'; apply nth_error_Some; congruence).
      destruct (Hbw (Z.of_nat a) ltac:(lia)) as [ia [_ [Hia Hsa]]].
      destruct (Hbw (Z.of_nat b) ltac:(lia)) as [ib [_ [Hib Hsb]]].
      rewrite (getitem_nth invSbox (Z.of_nat a) i) in Hia
        by (lia || (rewrite Nat2Z.id; exact Hi)).
      rewrite (getitem_nth invSbox (Z.of_nat b) i) in Hib
        by (lia || (rewrite Nat2Z.id; exact Hab)).
      apply Ok_inj in Hia. apply Ok_inj in Hib. subst ia ib.
      rewrite Hsa in Hsb. apply Ok_inj in Hsb. lia.
    + rewrite range_length, Hlen'. reflexivity.
    + intros v Hv. apply In_range.
      exact (proj1 (Forall_forall _ _) Hnv' v Hv).
  - intros v Hv. destruct (Hbw v Hv) as [i [_ Hi]]. exists i. exact Hi.
Qed.

Lemma generate_s_box_inverse_table_witness :
  exists sbox invSbox,
    generate_s_box FisherYates.shuffle 0xDEADBEEF = Ok (sbox, invSbox) /\
    Permutation (range 16) invSbox /\
    (forall v, 0 <= v < 16 ->
       exists i, getitem invSbox v = Ok i /\ getitem sbox i = Ok v).
Proof.
  exact (generate_s_box_inverse_table FisherYates.shuffle fisher_yates_perm
           0xDEADBEEF).
Defined.

(** ** Substitution, nibble by nibble *)

Lemma nibble_range x i : 0 <= nibble x i < 16.
Proof. apply (land_ones_range (Z.shiftr x (i * 4)) 4). lia. Qed.

Lemma nibble_testbit x j k :
  0 <= j ->
  Z.testbit (nibble x j) k = (0 <=? k) && (k <? 4) && Z.testbit x (k + j * 4).
Proof.
  intros Hj. destruct (Z.leb_spec 0 k) as [Hk|Hk].
  - unfold nibble. change 0xF with (Z.ones 4).
    rewrite Z.land_spec, Z.testbit_ones_nonneg, Z.shiftr_spec by lia.
    cbn [andb]. apply andb_comm.
  - apply Z.testbit_neg_r. lia.
Qed.

Lemma pack_nibbles_testbit a0 a1 a2 a3 k :
  0 <= k ->
  Z.testbit (pack_nibbles a0 a1 a2 a3) k =
  Z.testbit a0 k || Z.testbit a1 (k - 4) || Z.testbit a2 (k - 8)
  || Z.testbit a3 (k - 12).
Proof.
  intros Hk. unfold pack_nibbles.
  rewrite !Z.lor_spec, !Z.shiftl_spec, Z.bits_0 by lia.
  cbn [orb]. rewrite Z.sub_0_r. reflexivity.
Qed.

(** Bits of a nibble outside positions 0..3 are clear. *)
Ltac clear_nibble_bits :=
  repeat match goal with
    | |- context [Z.testbit ?a ?k] =>
        first [ rewrite (Z.testbit_neg_r a k) by lia
              | rewrite (testbit_high a 4 k) by (assumption || lia) ]
    end;
  rewrite ?orb_false_r, ?orb_false_l, ?andb_false_r, ?andb_true_r.

Lemma pack_nibbles_uint16 a0 a1 a2 a3 :
  0 <= a0 < 2 ^ 4 -> 0 <= a1 < 2 ^ 4 -> 0 <= a2 < 2 ^ 4 -> 0 <= a3 < 2 ^ 4 ->
  uint16 (pack_nibbles a0 a1 a2 a3).
Proof.
  intros H0 H1 H2 H3.
  assert (Hnn : 0 <= pack_nibbles a0 a1 a2 a3).
  { unfold pack_nibbles.
    repeat (apply Z.lor_nonneg; split); try (apply Z.shiftl_nonneg); lia. }
  split; [exact Hnn|]. apply bits_range; [lia|exact Hnn|].
  intros k Hk. rewrite pack_nibbles_testbit by lia.
  clear_nibble_bits. reflexivity.
Qed.

(** With the wanted bit set aside, every other bit of the selection is
    clear. *)
Ltac select_nibble a e k :=
  replace e with k by lia;
  generalize (Z.testbit a k); intros keep;
  clear_nibble_bits; destruct keep; reflexivity.

Lemma nibble_of_pack a0 a1 a2 a3 :
  0 <= a0 < 2 ^ 4 -> 0 <= a1 < 2 ^ 4 -> 0 <= a2 < 2 ^ 4 -> 0 <= a3 < 2 ^ 4 ->
  nibble (pack_nibbles a0 a1 a2 a3) 0 = a0 /\
  nibble (pack_nibbles a0 a1 a2 a3) 1 = a1 /\
  nibble (pack_nibbles a0 a1 a2 a3) 2 = a2 /\
  nibble (pack_nibbles a0 a1 a2 a3) 3 = a3.
Proof.
  intros H0 H1 H2 H3.
  repeat split; apply Z.bits_inj'; intros k Hk;
    rewrite nibble_testbit by lia;
    rewrite pack_nibbles_testbit by lia;
    (destruct (Z.leb_spec 0 k); [|lia]);
    (destruct (Z.ltb_spec k 4); cbn [andb];
     [|symmetry; apply (testbit_high _ 4); [assumption|lia]]).
  - select_nibble a0 (k + 0 * 4) k.
  - select_nibble a1 (k + 1 * 4 - 4) k.
  - select_nibble a2 (k + 2 * 4 - 8) k.
  - select_nibble a3 (k + 3 * 4 - 12) k.
Qed.

Lemma pack_of_nibbles x :
  uint16 x ->
  pack_nibbles (nibble x 0) (nibble x 1) (nibble x 2) (nibble x 3) = x.
Proof.
  intros Hx. apply Z.bits_inj'. intros k Hk.
  rewrite pack_nibbles_testbit, !nibble_testbit by lia.
  replace (k + 0 * 4) with k by lia.
  replace (k - 4 + 1 * 4) with k by lia.
  replace (k - 8 + 2 * 4) with k by lia.
  replace (k - 12 + 3 * 4) with k by lia.
  destruct (Z.lt_ge_cases k 16) as [Hlt|Hge].
  - destruct (Z.testbit x k); [|rewrite !andb_false_r; reflexivity].
    rewrite !andb_true_r.
    destruct (Z.leb_spec 0 k), (Z.ltb_spec k 4), (Z.leb_spec 0 (k - 4)),
      (Z.ltb_spec (k - 4) 4), (Z.leb_spec 0 (k - 8)), (Z.ltb_spec (k - 8) 4),
      (Z.leb_spec 0 (k - 12)), (Z.ltb_spec (k - 12) 4);
      try reflexivity; lia.
  - rewrite (testbit_high x 16) by (assumption || lia).
    rewrite !andb_false_r. reflexivity.
Qed.

Lemma getitem_Ok_nth {A} (l : list A) (i : Z) (a d : A) :
  0 <= i -> getitem l i = Ok a -> nth (Z.to_nat i) l d = a.
Proof.
  intros Hi. unfold getitem.
  destruct (Z.ltb_spec i 0); [lia|]. destruct (Z.ltb_spec i 0); [lia|].
  destruct (nth_error l (Z.to_nat i)) as [b|] eqn:E; [|discriminate].
  intros Hok. apply Ok_inj in Hok. subst b. apply nth_error_nth. exact E.
Qed.

Lemma subscript_nibble (tbl : list Z) x i :
  length tbl = 16%nat ->
  subscript (Some tbl) (nibble x i) = Ok (nth (Z.to_nat (nibble x i)) tbl 0).
Proof.
  intros Hlen. pose proof (nibble_range x i). cbn [subscript].
  apply getitem_nth; [lia|]. apply nth_error_nth'. lia.
Qed.

(** The loop shared by [s_box] and [inverse_s_box], run on a table. *)
Lemma substitute_run (tbl : list Z) (x : Z) :
  length tbl = 16%nat ->
  for_each (range 4)
    (fun result i =>
       let nibble := Z.land (Z.shiftr x (i * 4)) 0xF in
       sub <- subscript (Some tbl) nibble ;;
       Ok (Z.lor result (Z.shiftl sub (i * 4))))
    0 = Ok (substitute tbl x).
Proof.
  intros Hlen. change (range 4) with [0; 1; 2; 3]. cbv zeta.
  cbn [for_each].
  change (Z.land (Z.shiftr x (0 * 4)) 15) with (nibble x 0).
  change (Z.land (Z.shiftr x (1 * 4)) 15) with (nibble x 1).
  change (Z.land (Z.shiftr x (2 * 4)) 15) with (nibble x 2).
  change (Z.land (Z.shiftr x (3 * 4)) 15) with (nibble x 3).
  rewrite !subscript_nibble by assumption. reflexivity.
Qed.

Lemma s_box_substitute (g : Globals) (box : list Z) (x : Z) :
  s_box_nibble g = Some box -> length box = 16%nat ->
  s_box g x = Ok (substitute box x).
Proof.
  intros Hbox Hlen. unfold s_box. rewrite Hbox. apply substitute_run, Hlen.
Qed.

Lemma inverse_s_box_substitute (g : Globals) (box : list Z) (x : Z) :
  inverse_s_box_nibble g = Some box -> length box = 16%nat ->
  inverse_s_box g x = Ok (substitute box x).
Proof.
  intros Hbox Hlen. unfold inverse_s_box. rewrite Hbox.
  apply substitute_run, Hlen.
Qed.

Lemma nibble_valued_nth (tbl : list Z) (n : nat) :
  nibble_valued tbl -> 0 <= nth n tbl 0 < 2 ^ 4.
Proof.
  intros Hv. change (2 ^ 4) with 16.
  destruct (Nat.lt_ge_cases n (length tbl)) as [Hn|Hn].
  - apply (proj1 (Forall_forall _ _) Hv). apply nth_In, Hn.
  - rewrite nth_overflow by lia. lia.
Qed.

Lemma substitute_uint16 (tbl : list Z) (x : Z) :
  nibble_valued tbl -> uint16 (substitute tbl x).
Proof.
  intros Hv. unfold substitute.
  apply pack_nibbles_uint16; apply nibble_valued_nth, Hv.
Qed.

Lemma nibble_substitute (tbl : list Z) (x j : Z) :
  nibble_valued tbl -> 0 <= j < 4 ->
  nibble (substitute tbl x) j = nth (Z.to_nat (nibble x j)) tbl 0.
Proof.
  intros Hv Hj. unfold substitute.
  destruct (nibble_of_pack
              (nth (Z.to_nat (nibble x 0)) tbl 0) (nth (Z.to_nat (nibble x 1)) tbl 0)
              (nth (Z.to_nat (nibble x 2)) tbl 0) (nth (Z.to_nat (nibble x 3)) tbl 0)
              (nibble_valued_nth _ _ Hv) (nibble_valued_nth _ _ Hv)
              (nibble_valued_nth _ _ Hv) (nibble_valued_nth _ _ Hv))
    as [E0 [E1 [E2 E3]]].
  assert (Hc : j = 0 \/ j = 1 \/ j = 2 \/ j = 3) by lia.
  destruct Hc as [-> | [-> | [-> | ->]]]; assumption.
Qed.

(** Substituting with a table and then with a table that undoes it. *)
Lemma substitute_undo (t1 t2 : list Z) (x : Z) :
  nibble_valued t1 ->
  (forall v, 0 <= v < 16 ->
     exists i, 0 <= i < 16 /\ getitem t1 v = Ok i /\ getitem t2 i = Ok v) ->
  uint16 x ->
  substitute t2 (substitute t1 x) = x.
Proof.
  intros Hv Hundo Hx.
  assert (Hn : forall j, 0 <= j < 4 ->
            nth (Z.to_nat (nibble (substitute t1 x) j)) t2 0 = nibble x j).
  { intros j Hj. rewrite nibble_substitute by assumption.
    destruct (Hundo (nibble x j) (nibble_range x j)) as [i [Hi [H1 H2]]].
    pose proof (nibble_range x j).
    assert (H0 : 0 <= nibble x j) by lia. assert (H0i : 0 <= i) by lia.
    rewrite (getitem_Ok_nth t1 (nibble x j) i 0 H0 H1).
    exact (getitem_Ok_nth t2 i (nibble x j) 0 H0i H2). }
  unfold substitute at 1. rewrite !Hn by lia. apply pack_of_nibbles, Hx.
Qed.

(** X5: with a 16-entry table of nibbles in the global, [s_box] returns a
    16-bit value whose nibble [j] is the table entry at nibble [j] of the
    argument, for each of the four nibbles; bits of the argument above bit
    15 play no part. *)
Theorem s_box_nibblewise (g : Globals) (box : list Z) (x : Z)
  (Hbox : s_box_nibble g = Some box) (Hlen : length box = 16%nat)
  (Hval : nibble_valued box) :
  exists y,
    s_box g x = Ok y /\ uint16 y /\
    (forall j, 0 <= j < 4 -> getitem box (nibble x j) = Ok (nibble y j)) /\
    s_box g (Z.land x 0xFFFF) = Ok y.
Proof.
  exists (substitute box x).
  split; [apply s_box_substitute; assumption|].
  split; [apply substitute_uint16, Hval|]. split.
  - intros j Hj. rewrite (nibble_substitute box x j Hval Hj).
    pose proof (nibble_range x j).
    apply getitem_nth; [lia|]. apply nth_error_nth'. lia.
  - rewrite (s_box_substitute g box _ Hbox Hlen). f_equal.
    assert (Hn : forall j, 0 <= j < 4 -> nibble (Z.land x 0xFFFF) j = nibble x j).
    { intros j Hj. apply Z.bits_inj'. intros k Hk.
      rewrite !nibble_testbit by lia.
      destruct (Z.leb_spec 0 k); [|lia]. destruct (Z.ltb_spec k 4); [|reflexivity].
      cbn [andb]. rewrite testbit_land_FFFF by lia.
      destruct (Z.ltb_spec (k + j * 4) 16); [apply andb_true_r|lia]. }
    unfold substitute. rewrite !Hn by lia. reflexivity.
Qed.

Lemma s_box_nibblewise_witness :
  exists y,
    s_box demo_globals 0x1234 = Ok y /\ uint16 y /\
    (forall j, 0 <= j < 4 ->
       getitem [12; 6; 9; 10; 7; 3; 2; 0; 11; 5; 4; 1; 8; 15; 14; 13]
               (nibble 0x1234 j) = Ok (nibble y j)) /\
    s_box demo_globals (Z.land 0x1234 0xFFFF) = Ok y.
Proof.
  apply (s_box_nibblewise demo_globals
           [12; 6; 9; 10; 7; 3; 2; 0; 11; 5; 4; 1; 8; 15; 14; 13] 0x1234).
  - vm_compute. reflexivity.
  - reflexivity.
  - unfold nibble_valued. repeat constructor; lia.
Defined.

(** X6: once the globals hold the tables generated from a key (with any
    shuffle that rearranges its list), [inverse_s_box] undoes [s_box] and
    [s_box] undoes [inverse_s_box] on every 16-bit value. *)
Theorem s_box_inverse_s_box
  (shuffle : Z -> list Z -> list Z) (key : Z) (g : Globals) (x : Z)
  (shuffle_permutes : forall k l, Permutation l (shuffle k l))
  (Hg : session_of shuffle key g) (Hx : uint16 x) :
  (exists y, s_box g x = Ok y /\ inverse_s_box g y = Ok x) /\
  (exists z, inverse_s_box g x = Ok z /\ s_box g z = Ok x).
Proof.
  destruct Hg as [tables [Hgen ->]].
  destruct (generate_s_box_both shuffle shuffle_permutes key)
    as [sbox [invSbox [Hgen' [Hlen [Hlen' [Hnv [Hnv' [Hfw Hbw]]]]]]]].
  rewrite Hgen' in Hgen. apply Ok_inj in Hgen. subst tables.
  set (g := install_s_box (sbox, invSbox)).
  assert (Hs : forall v, s_box g v = Ok (substitute sbox v))
    by (intros v; apply s_box_substitute; [reflexivity|exact Hlen]).
  assert (Hi : forall v, inverse_s_box g v = Ok (substitute invSbox v))
    by (intros v; apply inverse_s_box_substitute; [reflexivity|exact Hlen']).
  split.
  - exists (substitute sbox x). rewrite Hs, Hi.
    split; [reflexivity|]. f_equal. apply substitute_undo; assumption.
  - exists (substitute invSbox x). rewrite Hs, Hi.
    split; [reflexivity|]. f_equal. apply substitute_undo; assumption.
Qed.

Lemma s_box_inverse_s_box_witness :
  (exists y, s_box demo_globals 0x1234 = Ok y /\
             inverse_s_box demo_globals y = Ok 0x1234) /\
  (exists z, inverse_s_box demo_globals 0x1234 = Ok z /\
             s_box demo_globals z = Ok 0x1234).
Proof.
  apply (s_box_inverse_s_box FisherYates.shuffle 0xDEADBEEF demo_globals 0x1234).
  - exact fisher_yates_perm.
  - exact demo_globals_session.
  - unfold uint16. lia.
Defined.

(** ** The P-box, the other way round *)

(** X7: [inverse_p_box] never raises (every position has an entry in its
    table), and [p_box] undoes it on every 16-bit value: together with C5
    the two are inverse bijections of the 16-bit values. *)
Theorem p_box_of_inverse_p_box (y : Z) (Hy : uint16 y) :
  exists r, inverse_p_box y = Ok r /\ uint16 r /\ p_box r = y.
Proof.
  pose proof (inverse_p_box_eq y) as Hr.
  set (r := fold_left _ (range 16) 0) in Hr.
  assert (Hbits : forall j, 0 <= j ->
            Z.testbit r j = if j <? 16 then Z.testbit y ((j * 3) mod 16) else false)
    by (intros j Hj; apply (inverse_p_box_testbit y r j Hr Hj)).
  assert (Hnn : 0 <= r).
  { apply scatter_nonneg; [lia|]. intros i Hi. apply In_range in Hi. lia. }
  exists r. split; [exact Hr|]. split.
  - split; [exact Hnn|]. apply bits_range; [lia|exact Hnn|].
    intros i Hi. rewrite Hbits by lia. destruct (Z.ltb_spec i 16); [lia|reflexivity].
  - apply Z.bits_inj'. intros j Hj. rewrite p_box_testbit by lia.
    destruct (Z.ltb_spec j 16) as [Hlt|Hge].
    + pose proof (Z.mod_pos_bound (j * 11) 16 ltac:(lia)) as Hb.
      rewrite Hbits by lia.
      destruct (Z.ltb_spec ((j * 11) mod 16) 16); [|lia].
      f_equal. cases16 j; reflexivity.
    + symmetry. apply (testbit_high y 16); [exact Hy|lia].
Qed.

Lemma p_box_of_inverse_p_box_witness :
  exists r, inverse_p_box 0x9850 = Ok r /\ uint16 r /\ p_box r = 0x9850.
Proof.
  exact (p_box_of_inverse_p_box 0x9850 ltac:(unfold uint16; lia)).
Defined.

(** X8: [p_box] is linear over XOR, [p_box (x ^ y) = p_box x ^ p_box y] for
    all integers, and looks at the low 16 bits of its argument only. *)
Theorem p_box_linear (x y : Z) :
  p_box (Z.lxor x y) = Z.lxor (p_box x) (p_box y) /\
  p_box (Z.land x 0xFFFF) = p_box x.
Proof.
  split; apply Z.bits_inj'; intros j Hj.
  - rewrite Z.lxor_spec, !p_box_testbit by lia.
    destruct (Z.ltb_spec j 16); [apply Z.lxor_spec|reflexivity].
  - rewrite !p_box_testbit by lia.
    destruct (Z.ltb_spec j 16); [|reflexivity].
    pose proof (Z.mod_pos_bound (j * 11) 16 ltac:(lia)) as Hb.
    rewrite testbit_land_FFFF by lia.
    destruct (Z.ltb_spec ((j * 11) mod 16) 16); [apply andb_true_r|lia].
Qed.

(** ** The round function *)

Lemma nibble_land_FFFF x j : 0 <= j < 4 -> nibble (Z.land x 0xFFFF) j = nibble x j.
Proof.
  intros Hj. apply Z.bits_inj'. intros k Hk.
  rewrite !nibble_testbit by lia.
  destruct (Z.leb_spec 0 k); [|lia]. destruct (Z.ltb_spec k 4); [|reflexivity].
  cbn [andb]. rewrite testbit_land_FFFF by lia.
  destruct (Z.ltb_spec (k + j * 4) 16); [apply andb_true_r|lia].
Qed.

Lemma s_box_low_bits (g : Globals) (x : Z) :
  s_box g (Z.land x 0xFFFF) = s_box g x.
Proof.
  unfold s_box. apply for_each_ext. intros s i Hi. apply In_range in Hi.
  cbv zeta. pose proof (nibble_land_FFFF x i Hi) as Hn. unfold nibble in Hn.
  rewrite Hn. reflexivity.
Qed.

(** X9: whatever the globals hold, [round_function] reads only the low 16
    bits of its argument and of the subkey, and a value it returns is a
    16-bit value. *)
Theorem round_function_low_bits (g : Globals) (x subkey : Z) :
  round_function g x subkey =
    round_function g (Z.land x 0xFFFF) (Z.land subkey 0xFFFF) /\
  (forall F, round_function g x subkey = Ok F -> uint16 F).
Proof.
  split.
  - unfold round_function. rewrite s_box_low_bits.
    rewrite (land_FFFF_id (Z.land subkey 0xFFFF)) by apply land_FFFF_range.
    reflexivity.
  - intros F. unfold round_function.
    destruct (s_box g x) as [sx|e]; cbn [bind]; [|discriminate].
    intros H. apply Ok_inj in H. subst F.
    apply lxor_uint16; [apply p_box_uint16|apply land_FFFF_range].
Qed.

(** ** An uninitialised session *)

Lemma s_box_uninitialised (g : Globals) (x : Z) :
  s_box_nibble g = None -> s_box g x = Raise TypeError.
Proof.
  intros H. unfold s_box. rewrite H. change (range 4) with [0; 1; 2; 3].
  reflexivity.
Qed.

Lemma round_function_uninitialised (g : Globals) (x subkey : Z) :
  s_box_nibble g = None -> round_function g x subkey = Raise TypeError.
Proof.
  intros H. unfold round_function. rewrite (s_box_uninitialised g x H).
  reflexivity.
Qed.

Lemma encrypt_block_uninitialised (g : Globals) (b s rounds : Z) :
  s_box_nibble g = None -> 1 <= rounds ->
  encrypt_block g b s rounds = Raise TypeError.
Proof.
  intros H Hr. unfold encrypt_block.
  pose proof (subkey_schedule_length s rounds) as Hlen.
  destruct (subkey_schedule s rounds) as [st subkeys]. cbn [snd] in Hlen.
  destruct subkeys as [|k ks]; [cbn [length] in Hlen; lia|].
  rewrite (encrypt_rounds_by_index g (k :: ks) rounds _ Hlen).
  cbn [for_each]. rewrite (round_function_uninitialised g _ k H). reflexivity.
Qed.

Lemma decrypt_block_uninitialised (g : Globals) (b s rounds : Z) :
  s_box_nibble g = None -> 1 <= rounds ->
  decrypt_block g b s rounds = Raise TypeError.
Proof.
  intros H Hr. unfold decrypt_block.
  pose proof (subkey_schedule_length s rounds) as Hlen.
  destruct (subkey_schedule s rounds) as [st subkeys]. cbn [snd] in Hlen.
  rewrite <- length_rev in Hlen.
  destruct (rev subkeys) as [|k ks]; [cbn [length] in Hlen; lia|].
  cbn [for_each]. rewrite (round_function_uninitialised g _ k H). reflexivity.
Qed.

Lemma bytes_to_blocks_nonempty (data : list byte) :
  data <> [] -> exists b rest, bytes_to_blocks data = b :: rest.
Proof.
  intros Hne. pose proof (bytes_to_blocks_length data) as Hlen.
  destruct (bytes_to_blocks data) as [|b rest]; [|eauto].
  exfalso. destruct data as [|a data]; [congruence|].
  unfold len in Hlen. cbn [length] in Hlen.
  assert (1 <= (Z.of_nat (S (length data)) + 3) / 4)
    by (apply Z.div_le_lower_bound; lia).
  lia.
Qed.

Lemma enumerate_cons {A} (a : A) (l : list A) :
  exists idx, enumerate (a :: l) = (0, a) :: combine idx l.
Proof.
  rewrite enumerate_eq. cbn [length seq map combine].
  eexists. reflexivity.
Qed.

(** X10: as long as the S-box global is still [None] (no call of
    [generate_s_box] was assigned to it), every operation that runs at least
    one round raises [TypeError]: [s_box], [encrypt_block], [decrypt_block],
    [encrypt_message] on any plaintext, and [decrypt_message] on any
    ciphertext that is not empty. *)
Theorem uninitialised_session_raises (g : Globals) (rounds : Z)
  (Hnone : s_box_nibble g = None) (Hr : 1 <= rounds) :
  (forall x, s_box g x = Raise TypeError) /\
  (forall b s, encrypt_block g b s rounds = Raise TypeError) /\
  (forall b s, decrypt_block g b s rounds = Raise TypeError) /\
  (forall m k, encrypt_message g m k rounds = Raise TypeError) /\
  (forall c k, c <> [] -> decrypt_message g c k rounds = Raise TypeError).
Proof.
  split; [intros x; apply s_box_uninitialised, Hnone|].
  split; [intros b s; apply encrypt_block_uninitialised; assumption|].
  split; [intros b s; apply decrypt_block_uninitialised; assumption|].
  split.
  - intros m k. unfold encrypt_message.
    destruct (pad_pkcs7_4 m) as [pb [Hv Hpad]]. cbv zeta in Hv, Hpad.
    rewrite Hpad. cbn [bind].
    pose proof (Z.mod_pos_bound (len m) 4 ltac:(lia)) as Hmod.
    destruct (bytes_to_blocks_nonempty
                (m ++ repeat pb (Z.to_nat (4 - len m mod 4)))) as [b [rest Hb]].
    { intros Hnil. apply app_eq_nil in Hnil. destruct Hnil as [_ Hnil].
      apply (f_equal (@length byte)) in Hnil.
      rewrite repeat_length in Hnil. cbn [length] in Hnil. lia. }
    rewrite Hb. unfold encrypt_blocks.
    destruct (enumerate_cons b rest) as [idx ->]. cbn [for_each].
    rewrite (encrypt_block_uninitialised g b k rounds Hnone Hr). reflexivity.
  - intros c k Hc. unfold decrypt_message, decrypt_blocks.
    destruct (bytes_to_blocks_nonempty c Hc) as [b [rest ->]].
    destruct (enumerate_cons b rest) as [idx ->]. cbn [for_each].
    rewrite (decrypt_block_uninitialised g b k rounds Hnone Hr). reflexivity.
Qed.

Lemma uninitialised_session_raises_witness :
  encrypt_message initial_globals ["h"; "i"]%byte 0xDEADBEEF 4 = Raise TypeError.
Proof.
  exact (proj1 (proj2 (proj2 (proj2
           (uninitialised_session_raises initial_globals 4 eq_refl ltac:(lia)))))
           ["h"; "i"]%byte 0xDEADBEEF).
Defined.

(** ** No rounds *)

Lemma range_nonpositive n : n <= 0 -> range n = [].
Proof. intros Hn. unfold range. replace (Z.to_nat n) with O by lia. reflexivity. Qed.

Lemma join_halves_mask b :
  Z.lor (Z.shiftl (Z.land (Z.land (Z.shiftr b 16) 0xFFFF) 0xFFFF) 16)
        (Z.land (Z.land b 0xFFFF) 0xFFFF)
  = Z.land b 0xFFFFFFFF.
Proof.
  rewrite (land_FFFF_id (Z.land (Z.shiftr b 16) 0xFFFF)) by apply land_FFFF_range.
  rewrite (land_FFFF_id (Z.land b 0xFFFF)) by apply land_FFFF_range.
  apply Z.bits_inj'. intros i Hi.
  change 0xFFFFFFFF with (Z.ones 32).
  rewrite Z.lor_spec, Z.shiftl_spec, (testbit_land_FFFF b i),
    (Z.land_spec b (Z.ones 32) i), (Z.testbit_ones_nonneg 32 i) by lia.
  destruct (Z.ltb_spec i 16).
  - rewrite (Z.testbit_neg_r _ (i - 16)) by lia.
    destruct (Z.ltb_spec i 32); [|lia]. reflexivity.
  - rewrite testbit_land_FFFF, Z.shiftr_spec by lia.
    replace (i - 16 + 16) with i by lia. rewrite andb_false_r, orb_false_r.
    destruct (Z.ltb_spec (i - 16) 16), (Z.ltb_spec i 32); try lia; reflexivity.
Qed.

Lemma land_mask32_id b : uint32 b -> Z.land b 0xFFFFFFFF = b.
Proof.
  intros Hb. change 0xFFFFFFFF with (Z.ones 32). rewrite Z.land_ones by lia.
  apply Z.mod_small. exact Hb.
Qed.

Lemma encrypt_block_no_rounds (g : Globals) (b s rounds : Z) :
  rounds <= 0 -> encrypt_block g b s rounds = Ok (Z.land b 0xFFFFFFFF, s).
Proof.
  intros Hr. unfold encrypt_block, subkey_schedule.
  rewrite (range_nonpositive rounds Hr). cbn [fold_left for_each bind].
  rewrite join_halves_mask. reflexivity.
Qed.

Lemma decrypt_block_no_rounds (g : Globals) (b s rounds : Z) :
  rounds <= 0 -> decrypt_block g b s rounds = Ok (Z.land b 0xFFFFFFFF, s).
Proof.
  intros Hr. unfold decrypt_block, subkey_schedule.
  rewrite (range_nonpositive rounds Hr). cbn [fold_left rev for_each bind].
  rewrite join_halves_mask. reflexivity.
Qed.

Lemma encrypt_loop_no_rounds (g : Globals) (rounds : Z) (blocks : list Z) :
  rounds <= 0 -> Forall uint32 blocks ->
  forall (idx : list Z) (st : Z) (acc : list Z),
    length idx = length blocks ->
    for_each (combine idx blocks)
      (fun '(lfsr_state, encrypted_blocks) '(idx, blk) =>
         '(enc_blk, lfsr_state) <- encrypt_block g blk lfsr_state rounds ;;
         Ok (lfsr_state, encrypted_blocks ++ [enc_blk]))
      (st, acc) = Ok (st, acc ++ blocks).
Proof.
  intros Hr. induction 1 as [|b bs Hb Hbs IH]; intros idx st acc Hl.
  - destruct idx; [|discriminate]. cbn [combine for_each].
    rewrite app_nil_r. reflexivity.
  - destruct idx as [|i idx]; [discriminate|]. cbn [combine for_each].
    rewrite (encrypt_block_no_rounds g b st rounds Hr). cbn [bind].
    rewrite (land_mask32_id b Hb).
    rewrite IH by (cbn [length] in Hl; lia).
    rewrite <- app_assoc. reflexivity.
Qed.

Lemma aligned_length (data : list byte) :
  len data mod 4 = 0 -> length data = (4 * Z.to_nat (len data / 4))%nat.
Proof.
  intros Hmod. pose proof (Z.div_mod (len data) 4 ltac:(lia)) as Hdm.
  unfold len in *.
  pose proof (Z.div_pos (Z.of_nat (length data)) 4 ltac:(lia) ltac:(lia)). lia.
Qed.

(** X11: with a round count of zero or less no subkey is drawn and no round
    runs, whatever the globals hold: [encrypt_block] and [decrypt_block]
    return the block cut to 32 bits and the LFSR state they were given, and
    [encrypt_message] returns the padded plaintext unchanged. *)
Theorem no_rounds_no_encryption (g : Globals) (rounds : Z) (Hr : rounds <= 0) :
  (forall b s, encrypt_block g b s rounds = Ok (Z.land b 0xFFFFFFFF, s)) /\
  (forall b s, decrypt_block g b s rounds = Ok (Z.land b 0xFFFFFFFF, s)) /\
  (forall m k, encrypt_message g m k rounds = pad_pkcs7 m 4).
Proof.
  split; [intros; apply encrypt_block_no_rounds, Hr|].
  split; [intros; apply decrypt_block_no_rounds, Hr|].
  intros m k. unfold encrypt_message.
  destruct (pad_then_unpad m) as [padded [Hpad [Hmod _]]].
  rewrite Hpad. cbn [bind].
  destruct (bytes_blocks_roundtrip _ padded (aligned_length padded Hmod))
    as [Hback Hall].
  unfold encrypt_blocks, enumerate.
  rewrite (encrypt_loop_no_rounds g rounds _ Hr Hall _ k []
             (enumerate_length _)).
  cbn [bind app]. exact Hback.
Qed.

Lemma no_rounds_no_encryption_witness :
  encrypt_message initial_globals ["h"; "i"]%byte 7 0 =
  Ok ["h"; "i"; "002"; "002"]%byte.
Proof.
  exact (proj2 (proj2 (no_rounds_no_encryption initial_globals 0 ltac:(lia)))
           ["h"; "i"]%byte 7).
Defined.

(** ** Encrypting what was decrypted *)

Section FeistelBack.

Variable g : Globals.
Hypothesis ready : session_ready g.

Lemma feistel_rounds_invert_back (subkeys : list Z) :
  forall L R, uint16 L -> uint16 R ->
    exists L' R',
      for_each subkeys
        (fun '(L, R) subkey =>
           F <- round_function g L subkey ;;
           let new_R := L in
           let new_L := Z.lxor R F in
           Ok (new_L, new_R)) (L, R) = Ok (L', R') /\
      uint16 L' /\ uint16 R' /\
      for_each (rev subkeys)
        (fun '(L, R) subkey =>
           F <- round_function g R subkey ;;
           let new_L := R in
           let new_R := Z.lxor L F in
           Ok (new_L, new_R)) (L', R') = Ok (L, R).
Proof.
  cbv zeta.
  induction subkeys as [|k ks IH]; intros L R HL HR; cbn [for_each rev].
  - exists L, R. auto.
  - destruct (round_function_total g L k ready) as [F [HF HFr]].
    rewrite HF. cbn [bind].
    destruct (IH (Z.lxor R F) L (lxor_uint16 _ _ HR HFr) HL)
      as [L' [R' [Hdec [HL' [HR' Henc]]]]].
    exists L', R'. split; [exact Hdec|]. split; [exact HL'|]. split; [exact HR'|].
    rewrite for_each_app, Henc. cbn [bind for_each]. rewrite HF. cbn [bind].
    rewrite lxor_cancel. reflexivity.
Qed.

Lemma block_roundtrip_back (c s rounds : Z) :
  uint32 c ->
  exists b,
    decrypt_block g c s rounds = Ok (b, fst (subkey_schedule s rounds)) /\
    uint32 b /\
    encrypt_block g b s rounds = Ok (c, fst (subkey_schedule s rounds)).
Proof.
  intros Hc. unfold encrypt_block, decrypt_block.
  pose proof (subkey_schedule_length s rounds) as Hlen.
  destruct (subkey_schedule s rounds) as [st subkeys].
  cbn [snd] in Hlen. cbn [fst].
  destruct (feistel_rounds_invert_back (rev subkeys)
              (Z.land (Z.shiftr c 16) 0xFFFF) (Z.land c 0xFFFF)
              (land_FFFF_range _) (land_FFFF_range _))
    as [L' [R' [Hdec [HL' [HR' Henc]]]]].
  rewrite rev_involutive in Henc. cbv zeta in Hdec, Henc.
  exists (Z.lor (Z.shiftl L' 16) R').
  split; [|split].
  - rewrite Hdec. cbn [bind]. rewrite !land_FFFF_id by assumption. reflexivity.
  - apply join_halves_uint32; assumption.
  - rewrite (encrypt_rounds_by_index g subkeys rounds _ Hlen). cbv zeta.
    rewrite high_half_of_join, low_half_of_join by assumption.
    rewrite Henc. cbn [bind].
    rewrite (land_FFFF_id (Z.land (Z.shiftr c 16) 0xFFFF)),
            (land_FFFF_id (Z.land c 0xFFFF)) by apply land_FFFF_range.
    rewrite join_of_halves by assumption. reflexivity.
Qed.

End FeistelBack.

(** X12: with the S-box table of the session in place, [encrypt_block]
    undoes [decrypt_block] too: for every 32-bit block [c], seed and round
    count, decrypting [c] and encrypting the result gives [c] back.  With C2
    this makes [encrypt_block] a bijection of the 32-bit blocks. *)
Theorem decrypt_block_encrypt_block (g : Globals) (c s rounds : Z)
  (Hg : session_ready g) (Hc : uint32 c) :
  exists b st,
    decrypt_block g c s rounds = Ok (b, st) /\
    uint32 b /\
    encrypt_block g b s rounds = Ok (c, st).
Proof.
  destruct (block_roundtrip_back g Hg c s rounds Hc) as [b [Hdec [Hb Henc]]].
  exists b, (fst (subkey_schedule s rounds)). auto.
Qed.

Lemma decrypt_block_encrypt_block_witness :
  exists b st,
    decrypt_block demo_globals 0x89ABCDEF 0xDEADBEEF 4 = Ok (b, st) /\
    uint32 b /\
    encrypt_block demo_globals b 0xDEADBEEF 4 = Ok (0x89ABCDEF, st).
Proof.
  apply (decrypt_block_encrypt_block demo_globals 0x89ABCDEF 0xDEADBEEF 4).
  - exact demo_globals_ready.
  - unfold uint32. lia.
Defined.

(** ** Conversions at their limits *)

Lemma bytes_of_ints_length (l : list Z) (bs : list byte) :
  bytes_of_ints l = Ok bs -> length bs = length l.
Proof.
  revert bs; induction l as [|v l IH]; intros bs; cbn [bytes_of_ints].
  - intros H. apply Ok_inj in H. subst bs. reflexivity.
  - destruct (byte_of_int v) as [b|e]; cbn [bind]; [|discriminate].
    destruct (bytes_of_ints l) as [bs'|e]; cbn [bind]; [|discriminate].
    intros H. apply Ok_inj in H. subst bs. cbn [length]. f_equal. apply IH.
    reflexivity.
Qed.

Lemma int_to_bytes4_big_overflow (v : Z) :
  v < 0 \/ 2 ^ 32 <= v -> int_to_bytes4_big v = Raise OverflowError.
Proof.
  intros Hv. unfold int_to_bytes4_big.
  destruct (Z.ltb_spec v 0); [reflexivity|].
  destruct (Z.leb_spec (2 ^ 32) v); [reflexivity|lia].
Qed.

Lemma blocks_to_bytes_length (blocks : list Z) :
  forall data, blocks_to_bytes blocks = Ok data ->
               length data = (4 * length blocks)%nat.
Proof.
  induction blocks as [|x xs IH]; intros data.
  - intros H. apply Ok_inj in H. subst data. reflexivity.
  - rewrite blocks_to_bytes_cons. unfold int_to_bytes4_big.
    destruct ((x <? 0) || (2 ^ 32 <=? x)); cbn [bind]; [discriminate|].
    destruct (bytes_of_ints _) as [chunk|e] eqn:Hchunk; cbn [bind]; [|discriminate].
    destruct (blocks_to_bytes xs) as [rest|e]; cbn [bind]; [|discriminate].
    intros H. apply Ok_inj in H. subst data.
    apply bytes_of_ints_length in Hchunk. cbn [length] in Hchunk.
    rewrite length_app, Hchunk, (IH rest eq_refl). cbn [length]. lia.
Qed.

(** X13: [blocks_to_bytes] returns exactly when every block is a 32-bit
    value, and then gives 4 bytes per block that [bytes_to_blocks] reads
    back as the same blocks; if some block is negative or needs more than 32
    bits it raises [OverflowError]. *)
Theorem blocks_to_bytes_outcome (blocks : list Z) :
  (Forall uint32 blocks ->
   exists data,
     blocks_to_bytes blocks = Ok data /\
     length data = (4 * length blocks)%nat /\
     bytes_to_blocks data = blocks) /\
  (Exists (fun v => v < 0 \/ 2 ^ 32 <= v) blocks ->
   blocks_to_bytes blocks = Raise OverflowError).
Proof.
  split.
  - intros Hall. destruct (blocks_bytes_roundtrip blocks Hall) as [data [Hd Hb]].
    exists data. split; [exact Hd|]. split; [|exact Hb].
    apply blocks_to_bytes_length, Hd.
  - induction 1 as [x xs Hx|x xs Hxs IH]; rewrite blocks_to_bytes_cons.
    + rewrite (int_to_bytes4_big_overflow x Hx). reflexivity.
    + destruct (Z.lt_ge_cases x 0) as [Hneg|Hnn];
        [rewrite (int_to_bytes4_big_overflow x (or_introl Hneg)); reflexivity|].
      destruct (Z.le_gt_cases (2 ^ 32) x) as [Hbig|Hfit];
        [rewrite (int_to_bytes4_big_overflow x (or_intror Hbig)); reflexivity|].
      destruct (int_from_to_bytes x (conj Hnn Hfit)) as [a [b [c [d [Hto _]]]]].
      rewrite Hto, IH. reflexivity.
Qed.

Lemma blocks_to_bytes_outcome_witness :
  blocks_to_bytes [1; 2 ^ 32; 3] = Raise OverflowError.
Proof.
  apply (proj2 (blocks_to_bytes_outcome [1; 2 ^ 32; 3])).
  apply Exists_cons_tl. apply Exists_cons_hd. right. lia.
Defined.

Lemma from_bytes_fold_bound (chunk : list byte) :
  forall acc, 0 <= acc ->
    0 <= fold_left (fun acc b => acc * 256 + int_of_byte b) chunk acc
      < (acc + 1) * 256 ^ len chunk.
Proof.
  induction chunk as [|b chunk IH]; intros acc Hacc; cbn [fold_left].
  - unfold len. cbn [length]. change (256 ^ Z.of_nat 0) with 1. lia.
  - pose proof (int_of_byte_range b) as Hb.
    specialize (IH (acc * 256 + int_of_byte b) ltac:(lia)).
    unfold len in *. cbn [length]. rewrite Nat2Z.inj_succ, Z.pow_succ_r by lia.
    assert (0 < 256 ^ Z.of_nat (length chunk)) by (apply Z.pow_pos_nonneg; lia).
    nia.
Qed.

Lemma int_from_bytes_big_chunk_uint32 (chunk : list byte) :
  (length chunk <= 4)%nat -> uint32 (int_from_bytes_big chunk).
Proof.
  intros Hlen. unfold int_from_bytes_big, uint32.
  pose proof (from_bytes_fold_bound chunk 0 ltac:(lia)) as Hb.
  assert (256 ^ len chunk <= 256 ^ 4)
    by (apply Z.pow_le_mono_r; unfold len; lia).
  change (256 ^ 4) with (2 ^ 32) in *. lia.
Qed.

Lemma bytes_to_blocks_uint32 (data : list byte) :
  Forall uint32 (bytes_to_blocks data).
Proof.
  rewrite bytes_to_blocks_map. apply Forall_forall. intros v Hv.
  apply in_map_iff in Hv. destruct Hv as [k [<- _]].
  apply int_from_bytes_big_chunk_uint32. rewrite length_firstn. lia.
Qed.

(** X14: converting any buffer to blocks and back never fails and returns
    [4 * ceil(len/4)] bytes: the buffer itself when its length is a multiple
    of 4, and a longer buffer otherwise (the short last group becomes a
    full 4-byte block). *)
Theorem bytes_to_blocks_to_bytes (data : list byte) :
  exists data',
    blocks_to_bytes (bytes_to_blocks data) = Ok data' /\
    len data' = 4 * ((len data + 3) / 4) /\
    (len data mod 4 = 0 -> data' = data) /\
    (len data mod 4 <> 0 -> len data < len data').
Proof.
  destruct (blocks_bytes_roundtrip _ (bytes_to_blocks_uint32 data))
    as [data' [Hd _]].
  pose proof (blocks_to_bytes_length _ _ Hd) as Hlen.
  rewrite bytes_to_blocks_length in Hlen.
  pose proof (len_nonneg data) as Hnn.
  assert (Hq : 0 <= (len data + 3) / 4) by (apply Z.div_pos; lia).
  exists data'. split; [exact Hd|]. split; [unfold len at 1; lia|]. split.
  - intros Hmod.
    destruct (bytes_blocks_roundtrip _ data (aligned_length data Hmod)) as [Hback _].
    rewrite Hback in Hd. apply Ok_inj in Hd. congruence.
  - intros Hmod. unfold len at 2. rewrite Hlen.
    pose proof (Z.div_mod (len data + 3) 4 ltac:(lia)).
    pose proof (Z.mod_pos_bound (len data + 3) 4 ltac:(lia)).
    pose proof (Z.div_mod (len data) 4 ltac:(lia)).
    pose proof (Z.mod_pos_bound (len data) 4 ltac:(lia)).
    assert ((len data + 3) mod 4 <> 3); [|lia].
    intros H3. apply Hmod.
    replace (len data) with (len data + 3 - 3) by lia.
    rewrite Zminus_mod, H3. reflexivity.
Qed.

(** ** Padding with other block sizes *)

Lemma padded_length_multiple (m : list byte) (b : byte) (bs : Z) :
  0 < bs ->
  len (m ++ repeat b (Z.to_nat (bs - len m mod bs))) mod bs = 0.
Proof.
  intros Hbs. pose proof (Z.mod_pos_bound (len m) bs Hbs) as Hmod.
  unfold len in *.
  rewrite length_app, repeat_length, Nat2Z.inj_add, Z2Nat.id by lia.
  set (n := Z.of_nat (length m)) in *.
  replace (n + (bs - n mod bs)) with (n - n mod bs + 1 * bs) by lia.
  rewrite Z.mod_add by lia. rewrite Zminus_mod_idemp_r, Z.sub_diag.
  apply Z.mod_0_l. lia.
Qed.

(** X15: for every block size from 1 to 255, [pad_pkcs7] appends [n] bytes
    of value [n] with [n = block_size - (len m mod block_size)] between 1
    and the block size, the padded length is a multiple of the block size,
    and [unpad_pkcs7] with the same block size returns the data. *)
Theorem pad_unpad_any_block_size (m : list byte) (block_size : Z)
  (Hbs : 1 <= block_size <= 255) :
  let n := block_size - (len m mod block_size) in
  exists b padded,
    int_of_byte b = n /\
    1 <= n <= block_size /\
    pad_pkcs7 m block_size = Ok padded /\
    padded = m ++ repeat b (Z.to_nat n) /\
    len padded mod block_size = 0 /\
    unpad_pkcs7 padded block_size = Ok m.
Proof.
  intros n.
  pose proof (Z.mod_pos_bound (len m) block_size ltac:(lia)) as Hmod.
  destruct (byte_of_int_in_range n ltac:(unfold n; lia)) as [b [Hb Hv]].
  exists b, (m ++ repeat b (Z.to_nat n)).
  split; [exact Hv|]. split; [unfold n; lia|]. split; [|split; [reflexivity|split]].
  - unfold pad_pkcs7. destruct (Z.eqb_spec block_size 0) as [|_]; [lia|]. fold n.
    destruct (Z.eqb_spec n 0) as [|_]; [unfold n in *; lia|].
    rewrite (bytes_of_ints_repeat n b _ Hb). reflexivity.
  - apply padded_length_multiple. lia.
  - rewrite <- Hv. apply unpad_padded. rewrite Hv. unfold n. lia.
Qed.

Lemma pad_unpad_any_block_size_witness :
  exists b padded,
    int_of_byte b = 6 /\ 1 <= 6 <= 8 /\
    pad_pkcs7 ["h"; "i"]%byte 8 = Ok padded /\
    padded = ["h"; "i"]%byte ++ repeat b 6 /\
    len padded mod 8 = 0 /\
    unpad_pkcs7 padded 8 = Ok ["h"; "i"]%byte.
Proof.
  exact (pad_unpad_any_block_size ["h"; "i"]%byte 8 ltac:(lia)).
Defined.



(** X17: whenever [unpad_pkcs7] returns, what it returns is a proper prefix
    of its argument: the argument is the result followed by between 1 and
    [block_size] bytes, all equal to the last byte of the argument. *)
Theorem unpad_pkcs7_prefix (d r : list byte) (block_size : Z)
  (Hok : unpad_pkcs7 d block_size = Ok r) :
  exists padding,
    d = r ++ padding /\
    (1 <= length padding)%nat /\
    len padding <= block_size /\
    len padding <= int_of_byte (last d "000"%byte) /\
    Forall (fun p => p = last d "000"%byte) padding.
Proof.
  destruct d as [|a d']; [discriminate Hok|].
  set (d := a :: d') in *.
  assert (Hne : d <> []) by discriminate.
  rewrite (unpad_pkcs7_nonempty d block_size Hne) in Hok. cbv zeta in Hok.
  set (n := int_of_byte (last d "000"%byte)) in *.
  destruct (Z.ltb_spec n 1); [discriminate Hok|].
  destruct (Z.ltb_spec block_size n); [discriminate Hok|]. cbn [orb] in Hok.
  destruct (existsb _ (last_n n d)) eqn:E; [discriminate Hok|].
  apply Ok_inj in Hok. subst r.
  apply existsb_differs_false in E.
  exists (last_n n d). unfold strip_n, last_n in *.
  assert (Hlen : (1 <= length d)%nat) by (unfold d; cbn [length]; lia).
  split; [symmetry; apply firstn_skipn|].
  split; [rewrite length_skipn; lia|].
  split; [unfold len; rewrite length_skipn; lia|].
  split; [unfold len; rewrite length_skipn; lia|].
  apply Forall_forall. intros p Hp.
  pose proof (proj1 (Forall_forall _ _) E p Hp) as Hpv. cbv beta in Hpv.
  fold n in Hpv. unfold n, int_of_byte in Hpv.
  apply N2Z.inj in Hpv.
  apply (f_equal Byte.of_N) in Hpv. rewrite !Byte.of_to_N in Hpv.
  congruence.
Qed.

Lemma unpad_pkcs7_prefix_witness :
  exists padding,
    ["a"; "002"; "002"]%byte = ["a"%byte] ++ padding /\
    (1 <= length padding)%nat /\
    len padding <= 4 /\
    len padding <= int_of_byte (last ["a"; "002"; "002"]%byte "000"%byte) /\
    Forall (fun p => p = last ["a"; "002"; "002"]%byte "000"%byte) padding.
Proof.
  exact (unpad_pkcs7_prefix ["a"; "002"; "002"]%byte ["a"%byte] 4 eq_refl).
Defined.

(** ** The LFSR state chain across blocks *)

Lemma lfsr_advance_add (a b : nat) (s : Z) :
  lfsr_advance (a + b) s = lfsr_advance a (lfsr_advance b s).
Proof. unfold lfsr_advance. apply Nat.iter_add. Qed.

Lemma subkey_schedule_state (s rounds : Z) :
  fst (subkey_schedule s rounds) = lfsr_advance (Z.to_nat rounds) s.
Proof.
  unfold subkey_schedule. rewrite <- (range_length rounds).
  assert (H : forall (l : list Z) st (acc : list Z),
             fst (fold_left
               (fun '(current_state, subkeys) (_ : Z) =>
                  let '(current_state, out_word) := lfsr_step current_state in
                  (current_state, subkeys ++ [Z.land out_word 65535]))
               l (st, acc)) = lfsr_advance (length l) st).
  { induction l as [|a l IH]; intros st acc; cbn [fold_left length fst];
      [reflexivity|].
    rewrite lfsr_step_eq. rewrite IH.
    unfold lfsr_advance. rewrite Nat.iter_succ_r. rewrite lfsr_step_eq.
    reflexivity. }
  apply (H (range rounds) s []).
Qed.

(** A loop over [enumerate(l)] whose body does not use the index. *)
Lemma for_each_enumerate {A S} (f : S -> A -> result S) (l : list A) :
  forall (idx : list Z) (acc : S),
    length idx = length l ->
    for_each (combine idx l) (fun s p => f s (snd p)) acc = for_each l f acc.
Proof.
  induction l as [|a l IH]; intros [|i idx] acc Hl; try discriminate;
    cbn [combine for_each snd]; [reflexivity|].
  destruct (f acc a); cbn [bind]; [|reflexivity].
  apply IH. cbn [length] in Hl. lia.
Qed.

Lemma encrypt_blocks_plain (g : Globals) (blocks : list Z) (key_32 rounds : Z) :
  encrypt_blocks g blocks key_32 rounds =
  '(lfsr_state, encrypted_blocks) <-
    for_each blocks
      (fun '(lfsr_state, encrypted_blocks) blk =>
         '(enc_blk, lfsr_state) <- encrypt_block g blk lfsr_state rounds ;;
         Ok (lfsr_state, encrypted_blocks ++ [enc_blk]))
      (key_32, []) ;;
  Ok encrypted_blocks.
Proof.
  unfold encrypt_blocks, enumerate.
  rewrite <- (for_each_enumerate _ blocks (range (len blocks)) _
                (enumerate_length blocks)).
  f_equal. apply for_each_ext. intros [st acc] [i blk] _. reflexivity.
Qed.

Lemma decrypt_blocks_plain (g : Globals) (blocks : list Z) (key_32 rounds : Z) :
  decrypt_blocks g blocks key_32 rounds =
  '(lfsr_state, decrypted_blocks) <-
    for_each blocks
      (fun '(lfsr_state, decrypted_blocks) blk =>
         '(dec_blk, lfsr_state) <- decrypt_block g blk lfsr_state rounds ;;
         Ok (lfsr_state, decrypted_blocks ++ [dec_blk]))
      (key_32, []) ;;
  Ok decrypted_blocks.
Proof.
  unfold decrypt_blocks, enumerate.
  rewrite <- (for_each_enumerate _ blocks (range (len blocks)) _
                (enumerate_length blocks)).
  f_equal. apply for_each_ext. intros [st acc] [i blk] _. reflexivity.
Qed.

Section StateChain.

Variable g : Globals.
Hypothesis ready : session_ready g.
Variable rounds : Z.

Lemma encrypt_block_total (b s : Z) :
  exists c,
    encrypt_block g b s rounds = Ok (c, lfsr_advance (Z.to_nat rounds) s) /\
    uint32 c.
Proof.
  rewrite <- subkey_schedule_state. unfold encrypt_block.
  pose proof (subkey_schedule_length s rounds) as Hlen.
  destruct (subkey_schedule s rounds) as [st subkeys].
  cbn [snd] in Hlen. cbn [fst].
  destruct (feistel_rounds_invert g ready subkeys
              (Z.land (Z.shiftr b 16) 0xFFFF) (Z.land b 0xFFFF)
              (land_FFFF_range _) (land_FFFF_range _))
    as [L' [R' [Henc [HL' [HR' _]]]]].
  cbv zeta in Henc.
  exists (Z.lor (Z.shiftl L' 16) R').
  rewrite (encrypt_rounds_by_index g subkeys rounds _ Hlen). cbv zeta.
  rewrite Henc. cbn [bind]. rewrite !land_FFFF_id by assumption.
  split; [reflexivity|apply join_halves_uint32; assumption].
Qed.

Lemma decrypt_block_total_state (c s : Z) :
  exists b,
    decrypt_block g c s rounds = Ok (b, lfsr_advance (Z.to_nat rounds) s) /\
    uint32 b.
Proof.
  rewrite <- subkey_schedule_state. apply decrypt_block_total, ready.
Qed.

Lemma encrypt_chain (blocks : list Z) :
  forall (st : Z) (acc : list Z),
    exists encs,
      for_each blocks
        (fun '(lfsr_state, encrypted_blocks) blk =>
           '(enc_blk, lfsr_state) <- encrypt_block g blk lfsr_state rounds ;;
           Ok (lfsr_state, encrypted_blocks ++ [enc_blk]))
        (st, acc)
      = Ok (lfsr_advance (length blocks * Z.to_nat rounds) st, acc ++ encs) /\
      length encs = length blocks /\
      Forall uint32 encs /\
      (forall j b, nth_error blocks j = Some b ->
         exists c,
           encrypt_block g b (lfsr_advance (j * Z.to_nat rounds) st) rounds
             = Ok (c, lfsr_advance (S j * Z.to_nat rounds) st) /\
           nth_error encs j = Some c).
Proof.
  induction blocks as [|b bs IH]; intros st acc.
  - exists []. cbn [for_each length Nat.mul]. rewrite app_nil_r.
    split; [reflexivity|]. split; [reflexivity|]. split; [constructor|].
    intros [|j] b'; discriminate.
  - destruct (encrypt_block_total b st) as [c [Hc Hu]].
    destruct (IH (lfsr_advance (Z.to_nat rounds) st) (acc ++ [c]))
      as [encs [Hrun [Hlen [Hall Hnth]]]].
    exists (c :: encs). cbn [for_each]. rewrite Hc. cbn [bind].
    rewrite Hrun, <- app_assoc, <- lfsr_advance_add.
    replace (length (b :: bs) * Z.to_nat rounds)%nat
      with (length bs * Z.to_nat rounds + Z.to_nat rounds)%nat
      by (cbn [length]; lia).
    split; [reflexivity|].
    split; [cbn [length]; lia|]. split; [constructor; assumption|].
    intros [|j] b' Hj; cbn [nth_error] in *.
    + injection Hj as <-. exists c. cbn [Nat.mul]. rewrite Nat.add_0_r.
      split; [exact Hc|reflexivity].
    + destruct (Hnth j b' Hj) as [c' [Hc' Hn]]. exists c'.
      rewrite <- !lfsr_advance_add in Hc'.
      replace (S j * Z.to_nat rounds)%nat
        with (j * Z.to_nat rounds + Z.to_nat rounds)%nat by lia.
      replace (S (S j) * Z.to_nat rounds)%nat
        with (S j * Z.to_nat rounds + Z.to_nat rounds)%nat by lia.
      split; [exact Hc'|exact Hn].
Qed.

Lemma decrypt_chain (blocks : list Z) :
  forall (st : Z) (acc : list Z),
    exists decs,
      for_each blocks
        (fun '(lfsr_state, decrypted_blocks) blk =>
           '(dec_blk, lfsr_state) <- decrypt_block g blk lfsr_state rounds ;;
           Ok (lfsr_state, decrypted_blocks ++ [dec_blk]))
        (st, acc)
      = Ok (lfsr_advance (length blocks * Z.to_nat rounds) st, acc ++ decs) /\
      length decs = length blocks /\
      Forall uint32 decs /\
      (forall j c, nth_error blocks j = Some c ->
         exists b,
           decrypt_block g c (lfsr_advance (j * Z.to_nat rounds) st) rounds
             = Ok (b, lfsr_advance (S j * Z.to_nat rounds) st) /\
           nth_error decs j = Some b).
Proof.
  induction blocks as [|c cs IH]; intros st acc.
  - exists []. cbn [for_each length Nat.mul]. rewrite app_nil_r.
    split; [reflexivity|]. split; [reflexivity|]. split; [constructor|].
    intros [|j] c'; discriminate.
  - destruct (decrypt_block_total_state c st) as [b [Hb Hu]].
    destruct (IH (lfsr_advance (Z.to_nat rounds) st) (acc ++ [b]))
      as [decs [Hrun [Hlen [Hall Hnth]]]].
    exists (b :: decs). cbn [for_each]. rewrite Hb. cbn [bind].
    rewrite Hrun, <- app_assoc, <- lfsr_advance_add.
    replace (length (c :: cs) * Z.to_nat rounds)%nat
      with (length cs * Z.to_nat rounds + Z.to_nat rounds)%nat
      by (cbn [length]; lia).
    split; [reflexivity|].
    split; [cbn [length]; lia|]. split; [constructor; assumption|].
    intros [|j] c' Hj; cbn [nth_error] in *.
    + injection Hj as <-. exists b. cbn [Nat.mul]. rewrite Nat.add_0_r.
      split; [exact Hb|reflexivity].
    + destruct (Hnth j c' Hj) as [b' [Hb' Hn]]. exists b'.
      rewrite <- !lfsr_advance_add in Hb'.
      replace (S j * Z.to_nat rounds)%nat
        with (j * Z.to_nat rounds + Z.to_nat rounds)%nat by lia.
      replace (S (S j) * Z.to_nat rounds)%nat
        with (S j * Z.to_nat rounds + Z.to_nat rounds)%nat by lia.
      split; [exact Hb'|exact Hn].
Qed.

End StateChain.

(** X18: on a session whose S-box table is in place, the block loops of
    [encrypt_message] and [decrypt_message] return one output block per
    input block, and output block [j] is [encrypt_block] (resp.
    [decrypt_block]) of input block [j] run from the LFSR state reached
    [j * rounds] steps after the key: it depends on the key, the position
    and that one block, and on no other block of the message. *)
Theorem message_blocks_positionwise (g : Globals) (blocks : list Z)
  (key_32 rounds : Z) (Hg : session_ready g) :
  (exists encs,
     encrypt_blocks g blocks key_32 rounds = Ok encs /\
     length encs = length blocks /\
     (forall j b, nth_error blocks j = Some b ->
        exists c st,
          encrypt_block g b (lfsr_advance (j * Z.to_nat rounds) key_32) rounds
            = Ok (c, st) /\
          nth_error encs j = Some c)) /\
  (exists decs,
     decrypt_blocks g blocks key_32 rounds = Ok decs /\
     length decs = length blocks /\
     (forall j c, nth_error blocks j = Some c ->
        exists b st,
          decrypt_block g c (lfsr_advance (j * Z.to_nat rounds) key_32) rounds
            = Ok (b, st) /\
          nth_error decs j = Some b)).
Proof.
  split.
  - destruct (encrypt_chain g Hg rounds blocks key_32 [])
      as [encs [Hrun [Hlen [_ Hnth]]]].
    exists encs. rewrite encrypt_blocks_plain, Hrun. cbn [bind app].
    split; [reflexivity|]. split; [exact Hlen|].
    intros j b Hj. destruct (Hnth j b Hj) as [c [Hc Hn]]. eauto.
  - destruct (decrypt_chain g Hg rounds blocks key_32 [])
      as [decs [Hrun [Hlen [_ Hnth]]]].
    exists decs. rewrite decrypt_blocks_plain, Hrun. cbn [bind app].
    split; [reflexivity|]. split; [exact Hlen|].
    intros j c Hj. destruct (Hnth j c Hj) as [b [Hb Hn]]. eauto.
Qed.

Lemma message_blocks_positionwise_witness :
  exists encs,
    encrypt_blocks demo_globals [1; 2; 3] 0xDEADBEEF 4 = Ok encs /\
    length encs = 3%nat /\
    (forall j b, nth_error [1; 2; 3] j = Some b ->
       exists c st,
         encrypt_block demo_globals b
           (lfsr_advance (j * Z.to_nat 4) 0xDEADBEEF) 4 = Ok (c, st) /\
         nth_error encs j = Some c).
Proof.
  exact (proj1 (message_blocks_positionwise demo_globals [1; 2; 3] 0xDEADBEEF 4
                  demo_globals_ready)).
Defined.

(** X19: on a session whose S-box table is in place, [encrypt_message]
    returns for every plaintext, key and round count, and the ciphertext has
    [len m + (4 - len m mod 4)] bytes: a multiple of 4, between 1 and 4
    bytes longer than the plaintext. *)
Theorem encrypt_message_length (g : Globals) (m : list byte) (k rounds : Z)
  (Hg : session_ready g) :
  exists c,
    encrypt_message g m k rounds = Ok c /\
    len c = len m + (4 - len m mod 4) /\
    len c mod 4 = 0 /\
    len m < len c <= len m + 4.
Proof.
  pose proof (Z.mod_pos_bound (len m) 4 ltac:(lia)) as Hmod.
  destruct (pad_pkcs7_4 m) as [pb [Hv Hpad]]. cbv zeta in Hv, Hpad.
  set (padded := m ++ repeat pb (Z.to_nat (4 - len m mod 4))) in *.
  pose proof (padded_length_aligned m pb) as Hal. fold padded in Hal.
  assert (Hlp : len padded = len m + (4 - len m mod 4)).
  { unfold padded, len. rewrite length_app, repeat_length. unfold len in Hmod. lia. }
  destruct (encrypt_chain g Hg rounds (bytes_to_blocks padded) k [])
    as [encs [Hrun [Hlen [Hall _]]]].
  destruct (blocks_bytes_roundtrip encs Hall) as [c [Hc _]].
  pose proof (blocks_to_bytes_length _ _ Hc) as Hcl.
  rewrite Hlen, bytes_to_blocks_length in Hcl.
  assert (Hclen : len c = len padded).
  { pose proof (Z.div_mod (len padded) 4 ltac:(lia)) as Hdm.
    pose proof (len_nonneg padded).
    assert (Hq : (len padded + 3) / 4 = len padded / 4).
    { symmetry. apply (Z.div_unique _ _ _ 3); lia. }
    rewrite Hq in Hcl.
    pose proof (Z.div_pos (len padded) 4 ltac:(lia) ltac:(lia)).
    unfold len at 1. lia. }
  exists c. unfold encrypt_message. rewrite Hpad. cbn [bind].
  rewrite encrypt_blocks_plain, Hrun. cbn [bind app].
  split; [exact Hc|]. split; [lia|]. split; [rewrite Hclen; exact Hal|lia].
Qed.

Lemma encrypt_message_length_witness :
  exists c,
    encrypt_message demo_globals ["h"; "i"; "!"; "?"]%byte 0xDEADBEEF 4 = Ok c /\
    len c = len ["h"; "i"; "!"; "?"]%byte
            + (4 - len ["h"; "i"; "!"; "?"]%byte mod 4) /\
    len c mod 4 = 0 /\
    len ["h"; "i"; "!"; "?"]%byte < len c <= len ["h"; "i"; "!"; "?"]%byte + 4.
Proof.
  exact (encrypt_message_length demo_globals ["h"; "i"; "!"; "?"]%byte
           0xDEADBEEF 4 demo_globals_ready).
Defined.

(** X20: on a session whose S-box table is in place, [decrypt_message] on a
    ciphertext that is not empty has two outcomes only, whatever the bytes,
    their number, the key and the round count: it returns a plaintext
    shorter than the ciphertext rounded up to whole blocks, or it raises the
    invalid-padding [ValueError]. *)
Theorem decrypt_message_outcomes (g : Globals) (c : list byte) (k rounds : Z)
  (Hg : session_ready g) (Hc : c <> []) :
  (exists m, decrypt_message g c k rounds = Ok m /\
             len m < 4 * ((len c + 3) / 4)) \/
  decrypt_message g c k rounds = Raise InvalidPadding.
Proof.
  destruct (decrypt_chain g Hg rounds (bytes_to_blocks c) k [])
    as [decs [Hrun [Hlen [Hall _]]]].
  destruct (blocks_bytes_roundtrip decs Hall) as [p [Hp _]].
  pose proof (blocks_to_bytes_length _ _ Hp) as Hpl.
  rewrite Hlen in Hpl.
  destruct (bytes_to_blocks_nonempty c Hc) as [b [rest Hb]].
  assert (Hne : p <> []).
  { intros ->. rewrite Hb in Hpl. cbn [length] in Hpl. lia. }
  unfold decrypt_message. rewrite decrypt_blocks_plain, Hrun. cbn [bind app].
  rewrite Hp. cbn [bind].
  rewrite (unpad_pkcs7_nonempty p 4 Hne). cbv zeta.
  set (n := int_of_byte (last p "000"%byte)).
  destruct ((n <? 1) || (4 <? n)) eqn:En; [right; reflexivity|].
  destruct (existsb _ (last_n n p)); [right; reflexivity|].
  left. exists (strip_n n p). split; [reflexivity|].
  apply orb_false_iff in En. destruct En as [En _]. apply Z.ltb_ge in En.
  rewrite bytes_to_blocks_length in Hpl.
  assert (0 <= (len c + 3) / 4) by (apply Z.div_pos; pose proof (len_nonneg c); lia).
  assert (0 < length p)%nat by (destruct p; [congruence|cbn [length]; lia]).
  unfold strip_n, len at 1. rewrite length_firstn. lia.
Qed.

Lemma decrypt_message_outcomes_witness :
  (exists m, decrypt_message demo_globals ["001"; "002"; "003"]%byte 5 4 = Ok m /\
             len m < 4 * ((len ["001"; "002"; "003"]%byte + 3) / 4)) \/
  decrypt_message demo_globals ["001"; "002"; "003"]%byte 5 4 = Raise InvalidPadding.
Proof.
  apply (decrypt_message_outcomes demo_globals ["001"; "002"; "003"]%byte 5 4).
  - exact demo_globals_ready.
  - discriminate.
Defined.

(** ** The main routine *)

(** X21: for every message and every key, with any shuffle that rearranges
    its list and any codec whose [decode] undoes [encode], the main routine
    raises nothing and takes the success branch: the decrypted message
    equals the original one. *)
Theorem main_routine_succeeds
  (shuffle : Z -> list Z -> list Z)
  (encode : string -> list byte) (decode : list byte -> result string)
  (original_message : string) (key_32 : Z)
  (shuffle_permutes : forall key l, Permutation l (shuffle key l))
  (codec : forall s, decode (encode s) = Ok s) :
  main_routine shuffle encode decode original_message key_32 = Ok true.
Proof.
  unfold main_routine. cbv zeta.
  destruct (generate_s_box_tables shuffle shuffle_permutes key_32)
    as [sbox [invSbox [Hgen [_ [Hlen _]]]]].
  rewrite Hgen. cbn [bind].
  assert (Hready : session_ready (install_s_box (sbox, invSbox)))
    by (exists sbox; split; [reflexivity|exact Hlen]).
  destruct (encrypt_decrypt_message_rounds _ (encode original_message)
              key_32 4 Hready) as [c [Henc Hdec]].
  rewrite Henc. cbn [bind]. rewrite Hdec. cbn [bind].
  rewrite codec. cbn [bind]. rewrite String.eqb_refl. reflexivity.
Qed.

Lemma main_routine_succeeds_witness :
  main_routine FisherYates.shuffle list_byte_of_string
    (fun bs => Ok (string_of_list_byte bs))
    "Dude, We are having a party tonight at 8pm." 0xDEADBEEF = Ok true.
Proof.
  apply main_routine_succeeds.
  - exact fisher_yates_perm.
  - intros s. rewrite string_of_list_byte_of_string. reflexivity.
Defined.
